(** * The estimate-request orchestrator of [useEstimateFlow]

    A shallow embedding of [src/hooks/useEstimateFlow.ts]: the React state
    of the hook is a record, every handler is a computation in a small
    state-and-exception monad over that record, and the external
    collaborators (the leads table, the [generate-estimate] function, the
    question-set matcher, the toast sink) are calls whose replies come from
    an oracle and which are recorded, in order, in a log.

    Reading conventions:
    - a handler reads the state through the closure of the render that
      created it ([snap]) and writes it through the setters;
    - every trigger runs to completion before the next one starts (the
      event loop is single-threaded; overlapping continuations of several
      pending promises are not modelled);
    - [console.log] and [console.error] are not user-visible and are left
      out. *)

From stdpp Require Import gmap strings list fin_maps.
From Stdlib Require Import ZArith.

#[local] Set Warnings "-register-all".

(** ** JavaScript values *)

(** [Json] of [@/integrations/supabase/types]. *)
Inductive Json : Type :=
| JNull
| JBool (b : bool)
| JNumber (n : Z)
| JString (s : string)
| JArray (l : list Json)
| JObject (l : list (string * Json)).

(** Truthiness of a string: only the empty string is falsy. *)
Definition truthy_string (s : string) : bool :=
  match s with
  | EmptyString => false
  | String _ _ => true
  end.

(** Truthiness of a value that is a string, [null] or [undefined]. *)
Definition truthy_opt (o : option string) : bool :=
  match o with
  | Some s => truthy_string s
  | None => false
  end.

(** Truthiness of a JSON value, as tested by [&& lead.estimate_data]. *)
Definition truthy_json (j : Json) : bool :=
  match j with
  | JNull => false
  | JBool b => b
  | JNumber n => negb (n =? 0)%Z
  | JString s => truthy_string s
  | JArray _ => true
  | JObject _ => true
  end.

(** [a || d] where [a] is a string or absent and [d] is a string. *)
Definition or_else (a : option string) (d : string) : string :=
  match a with
  | Some s => if truthy_string s then s else d
  | None => d
  end.

(** A property key computed from a possibly [undefined] value:
    [obj[undefined]] reads the property named "undefined". *)
Definition js_key (k : option string) : string := default "undefined" k.

(** A thrown value.  [new Error(m)] is an instance of [Error]; the error
    objects handed back by the gateways may or may not be. *)
Record JsError : Type := mkJsError {
  instanceofError : bool;
  message : string
}.

Definition newError (m : string) : JsError := mkJsError true m.

(** ** Data model *)

Inductive EstimateStage : Type :=
| stage_photo
| stage_description
| stage_questions
| stage_contact
| stage_estimate
| stage_category
| stage_loading.

(** Modelled from the spec: the declarations of [@/types/estimate] are not
    part of the sources; an answer is
    [{question text, type, ordered list of selected answer values, list of
    available options}]. *)
Record QuestionOption : Type := mkQuestionOption {
  label : string;
  value : string
}.

Module QuestionAnswer.
Record t : Type := mk {
  question : string;
  type : string;
  answers : list string;
  options : list QuestionOption
}.
End QuestionAnswer.

(** The object literal built by [formatAnswersForJson] for one answer. *)
Module FormattedAnswer.
Record t : Type := mk {
  question : string;
  type : string;
  answers : list string;
  options : list QuestionOption
}.
End FormattedAnswer.

(** An object that starts as [{}] and is filled by assignments
    [obj[key] = value]: its own enumerable properties, and the object that
    an assignment to the key "__proto__" made its prototype ([None] while
    the prototype is still [Object.prototype]).  Only the own properties
    are serialized. *)
Record PlainObject (A : Type) : Type := mkPlainObject {
  own : gmap string A;
  proto : option A
}.
Arguments mkPlainObject {A} own proto.
Arguments own {A} p.
Arguments proto {A} p.

(** [{}] *)
Definition emptyObject {A : Type} : PlainObject A := mkPlainObject ∅ None.

(** [obj[key] = value] for an object [value]: on a plain object the key
    "__proto__" is the accessor inherited from [Object.prototype], whose
    setter replaces the prototype and adds no own property; every other
    key becomes (or overwrites) an own property. *)
Definition assign {A : Type} (key : string) (value : A) (obj : PlainObject A)
  : PlainObject A :=
  if bool_decide (key = "__proto__") then mkPlainObject (own obj) (Some value)
  else mkPlainObject (<[key := value]> (own obj)) (proto obj).

(** [AnswersState]: category name to (question id to answer), the own
    properties that [Object.entries] enumerates.  The inner object may be
    missing ([undefined]), which the code guards against with
    [categoryAnswers || {}]. *)
Abbreviation AnswersState := (gmap string (option (gmap string QuestionAnswer.t))).
Abbreviation FormattedAnswers := (PlainObject (PlainObject FormattedAnswer.t)).

(** Modelled from the spec: [CategoryQuestions] is
    [{category, ordered question definitions}]. *)
Record QuestionDef : Type := mkQuestionDef {
  q_id : string;
  q_text : string
}.

Module CategoryQuestions.
Record t : Type := mk {
  category : string;
  questions : list QuestionDef
}.
End CategoryQuestions.

(** Modelled from the spec: a catalog [Category], with the fields that
    [handleDescriptionSubmit] copies. *)
Module Category.
Record t : Type := mk {
  id : string;
  name : string;
  description : option string;
  icon : option string;
  keywords : option (list string);
  questions : option (list QuestionDef)
}.
End Category.

Module CategoryForMatching.
Record t : Type := mk {
  id : string;
  name : string;
  description : option string;
  icon : option string;
  keywords : list string;
  questions : list QuestionDef
}.
End CategoryForMatching.

Record EstimateConfig : Type := mkConfig {
  contractorId : option string
}.

(** [contactData: any], read at four properties. *)
Record ContactData : Type := mkContact {
  fullName : string;
  email : string;
  phone : string;
  address : string
}.

(** The object passed to [.update(...)]. *)
Record ContactUpdate : Type := mkContactUpdate {
  upd_user_name : string;
  upd_user_email : string;
  upd_user_phone : string;
  upd_project_address : string
}.

Module LeadInsert.
Record t : Type := mk {
  project_description : string;
  project_title : string;
  answers : FormattedAnswers;
  category : option string;
  status : string;
  contractor_id : option string;
  project_images : list string;
  user_name : option string;
  user_email : option string;
  user_phone : option string;
  project_address : option string;
  is_test_estimate : option bool
}.
End LeadInsert.

(** The columns selected by [checkEstimateStatus]. *)
Module LeadRow.
Record t : Type := mk {
  estimate_data : Json;
  status : option string;
  error_message : option string
}.
End LeadRow.

(** The body of the [generate-estimate] invocation. *)
Module InvokeBody.
Record t : Type := mk {
  leadId : string;
  contractorId : option string;
  projectDescription : string;
  category : option string;
  imageUrl : option string;
  projectImages : list string
}.
End InvokeBody.

Record Toast : Type := mkToast {
  title : string;
  toast_description : string;
  variant : string
}.

Definition errorToast (d : string) : Toast := mkToast "Error" d "destructive".

(** ** Replies of the external collaborators *)

(** [{ data: lead, error }] of [.insert(..).select().single()]: either an
    error, or data whose [id] may be missing. *)
Inductive InsertResult : Type :=
| InsertError (e : JsError)
| InsertData (id : option string).

Inductive UpdateResult : Type :=
| UpdateError (e : JsError)
| UpdateOk.

Inductive InvokeResult : Type :=
| InvokeError (e : JsError)
| InvokeOk.

(** [{ data: lead, error }] of [.maybeSingle()]. *)
Inductive QueryResult : Type :=
| QueryError (e : JsError)
| QueryNoRow
| QueryRow (lead : LeadRow.t).

(** [consolidateQuestionSets(await findMatchingQuestionSets(..), ..)]: the
    matcher is an external collaborator; it yields the consolidated sets or
    throws. *)
Inductive MatchResult : Type :=
| MatchThrows (e : JsError)
| MatchSets (consolidatedSets : list CategoryQuestions.t).

(** Every call to a collaborator, with the reply it got, and every toast. *)
Inductive Event : Type :=
| EvInsert (d : LeadInsert.t) (r : InsertResult)
| EvUpdate (id : string) (c : ContactUpdate) (r : UpdateResult)
| EvInvoke (b : InvokeBody.t) (r : InvokeResult)
| EvQuery (id : string) (r : QueryResult)
| EvMatch (description : string) (cats : list CategoryForMatching.t) (r : MatchResult)
| EvToast (t : Toast).

Definition is_insert (e : Event) : bool :=
  match e with EvInsert _ _ => true | _ => false end.
Definition is_update (e : Event) : bool :=
  match e with EvUpdate _ _ _ => true | _ => false end.
Definition is_invoke (e : Event) : bool :=
  match e with EvInvoke _ _ => true | _ => false end.
Definition is_query (e : Event) : bool :=
  match e with EvQuery _ _ => true | _ => false end.
Definition is_match (e : Event) : bool :=
  match e with EvMatch _ _ _ => true | _ => false end.
Definition is_toast (e : Event) : bool :=
  match e with EvToast _ => true | _ => false end.


Definition count (p : Event → bool) (l : list Event) : nat :=
  length (filter (λ e, p e = true) l).

(** The oracle: the reply to the [n]-th call of each kind. *)
Record Gateway : Type := mkGateway {
  insert_reply : nat → InsertResult;
  update_reply : nat → UpdateResult;
  invoke_reply : nat → InvokeResult;
  query_reply : nat → QueryResult;
  matcher_reply : nat → MatchResult
}.

(** ** State *)

Record FlowState : Type := mkFlow {
  stage : EstimateStage;
  uploadedImageUrl : option string;
  uploadedPhotos : list string;
  projectDescription : string;
  currentLeadId : option string;
  selectedCategory : option string;
  completedCategories : list string;
  matchedQuestionSets : list CategoryQuestions.t;
  progress : Z;
  estimate : Json;
  categories : list Category.t;
  isLoading : bool;
  isGeneratingEstimate : bool;
  answers : AnswersState
}.

(** The [useState] initial values. *)
Definition initialFlow : FlowState :=
  mkFlow stage_photo None [] "" None None [] [] 0 JNull [] true false ∅.

(** A running [setInterval]: the lead it polls and its [timeElapsed]. *)
Record PollTimer : Type := mkPollTimer {
  timer_leadId : string;
  timeElapsed : Z
}.

Record World : Type := mkWorld {
  flow : FlowState;
  timers : gmap nat PollTimer;
  nextTimer : nat;
  log : list Event
}.

Definition initialWorld : World := mkWorld initialFlow ∅ 0 [].

Definition ESTIMATE_TIMEOUT : Z := 120000.
Definition POLL_INTERVAL : Z := 3000.

(** ** The monad of handlers

    A computation transforms the world and either completes normally or
    throws. *)

Inductive Completion (A : Type) : Type :=
| Normal (a : A)
| Throw (e : JsError).
Arguments Normal {A} a.
Arguments Throw {A} e.

Definition M (A : Type) : Type := World → Completion A * World.

#[export] Instance M_ret : MRet M := λ A a w, (Normal a, w).

#[export] Instance M_bind : MBind M :=
  λ A B k m w, match m w with
               | (Normal a, w') => k a w'
               | (Throw e, w') => (Throw e, w')
               end.

Definition throw {A} (e : JsError) : M A := λ w, (Throw e, w).

(** [try { body } catch (e) { handler }] *)
Definition try_catch {A} (body : M A) (handler : JsError → M A) : M A :=
  λ w, match body w with
       | (Normal a, w') => (Normal a, w')
       | (Throw e, w') => handler e w'
       end.

(** *** Setters of the hook state *)

Definition modify_flow (f : FlowState → FlowState) : M unit :=
  λ w, (Normal tt, mkWorld (f (flow w)) (timers w) (nextTimer w) (log w)).

Definition with_stage (st : EstimateStage) (s : FlowState) : FlowState :=
  mkFlow st (uploadedImageUrl s) (uploadedPhotos s) (projectDescription s)
    (currentLeadId s) (selectedCategory s) (completedCategories s)
    (matchedQuestionSets s) (progress s) (estimate s) (categories s)
    (isLoading s) (isGeneratingEstimate s) (answers s).

Definition with_uploadedImageUrl (u : option string) (s : FlowState) : FlowState :=
  mkFlow (stage s) u (uploadedPhotos s) (projectDescription s)
    (currentLeadId s) (selectedCategory s) (completedCategories s)
    (matchedQuestionSets s) (progress s) (estimate s) (categories s)
    (isLoading s) (isGeneratingEstimate s) (answers s).

Definition with_uploadedPhotos (urls : list string) (s : FlowState) : FlowState :=
  mkFlow (stage s) (uploadedImageUrl s) urls (projectDescription s)
    (currentLeadId s) (selectedCategory s) (completedCategories s)
    (matchedQuestionSets s) (progress s) (estimate s) (categories s)
    (isLoading s) (isGeneratingEstimate s) (answers s).

Definition with_projectDescription (d : string) (s : FlowState) : FlowState :=
  mkFlow (stage s) (uploadedImageUrl s) (uploadedPhotos s) d
    (currentLeadId s) (selectedCategory s) (completedCategories s)
    (matchedQuestionSets s) (progress s) (estimate s) (categories s)
    (isLoading s) (isGeneratingEstimate s) (answers s).

Definition with_currentLeadId (id : option string) (s : FlowState) : FlowState :=
  mkFlow (stage s) (uploadedImageUrl s) (uploadedPhotos s) (projectDescription s)
    id (selectedCategory s) (completedCategories s)
    (matchedQuestionSets s) (progress s) (estimate s) (categories s)
    (isLoading s) (isGeneratingEstimate s) (answers s).

Definition with_selectedCategory (c : option string) (s : FlowState) : FlowState :=
  mkFlow (stage s) (uploadedImageUrl s) (uploadedPhotos s) (projectDescription s)
    (currentLeadId s) c (completedCategories s)
    (matchedQuestionSets s) (progress s) (estimate s) (categories s)
    (isLoading s) (isGeneratingEstimate s) (answers s).

Definition with_matchedQuestionSets (l : list CategoryQuestions.t) (s : FlowState) : FlowState :=
  mkFlow (stage s) (uploadedImageUrl s) (uploadedPhotos s) (projectDescription s)
    (currentLeadId s) (selectedCategory s) (completedCategories s)
    l (progress s) (estimate s) (categories s)
    (isLoading s) (isGeneratingEstimate s) (answers s).

Definition with_estimate (e : Json) (s : FlowState) : FlowState :=
  mkFlow (stage s) (uploadedImageUrl s) (uploadedPhotos s) (projectDescription s)
    (currentLeadId s) (selectedCategory s) (completedCategories s)
    (matchedQuestionSets s) (progress s) e (categories s)
    (isLoading s) (isGeneratingEstimate s) (answers s).

Definition with_isGeneratingEstimate (b : bool) (s : FlowState) : FlowState :=
  mkFlow (stage s) (uploadedImageUrl s) (uploadedPhotos s) (projectDescription s)
    (currentLeadId s) (selectedCategory s) (completedCategories s)
    (matchedQuestionSets s) (progress s) (estimate s) (categories s)
    (isLoading s) b (answers s).

Definition with_answers (a : AnswersState) (s : FlowState) : FlowState :=
  mkFlow (stage s) (uploadedImageUrl s) (uploadedPhotos s) (projectDescription s)
    (currentLeadId s) (selectedCategory s) (completedCategories s)
    (matchedQuestionSets s) (progress s) (estimate s) (categories s)
    (isLoading s) (isGeneratingEstimate s) a.

(** The [useState] setters. *)

Definition setStage (st : EstimateStage) : M unit := modify_flow (with_stage st).
Definition setUploadedImageUrl (u : option string) : M unit := modify_flow (with_uploadedImageUrl u).
Definition setUploadedPhotos (urls : list string) : M unit := modify_flow (with_uploadedPhotos urls).
Definition setProjectDescription (d : string) : M unit := modify_flow (with_projectDescription d).
Definition setCurrentLeadId (id : option string) : M unit := modify_flow (with_currentLeadId id).
Definition setSelectedCategory (c : option string) : M unit := modify_flow (with_selectedCategory c).
Definition setMatchedQuestionSets (l : list CategoryQuestions.t) : M unit := modify_flow (with_matchedQuestionSets l).
Definition setEstimate (e : Json) : M unit := modify_flow (with_estimate e).
Definition setIsGeneratingEstimate (b : bool) : M unit := modify_flow (with_isGeneratingEstimate b).
Definition setAnswers (a : AnswersState) : M unit := modify_flow (with_answers a).

(** *** Effects *)

Definition emit (e : Event) : M unit :=
  λ w, (Normal tt, mkWorld (flow w) (timers w) (nextTimer w) (log w ++ [e])).

Definition toast (t : Toast) : M unit := emit (EvToast t).

(** [setInterval(callback, POLL_INTERVAL)]: returns the handle. *)
Definition setInterval (leadId : string) : M nat :=
  λ w, (Normal (nextTimer w),
        mkWorld (flow w) (<[nextTimer w := mkPollTimer leadId 0]> (timers w))
          (S (nextTimer w)) (log w)).

Definition clearInterval (h : nat) : M unit :=
  λ w, (Normal tt, mkWorld (flow w) (delete h (timers w)) (nextTimer w) (log w)).

(** [timeElapsed += POLL_INTERVAL] in the closure of interval [h]; yields
    the new value. *)
Definition advanceElapsed (h : nat) (t : PollTimer) : M Z :=
  λ w, let e := (timeElapsed t + POLL_INTERVAL)%Z in
       (Normal e,
        mkWorld (flow w) (<[h := mkPollTimer (timer_leadId t) e]> (timers w))
          (nextTimer w) (log w)).

Section Gateways.
Variable gw : Gateway.

Definition leads_insert (d : LeadInsert.t) : M InsertResult :=
  λ w, let r := insert_reply gw (count is_insert (log w)) in
       (Normal r, mkWorld (flow w) (timers w) (nextTimer w) (log w ++ [EvInsert d r])).

Definition leads_update (id : string) (c : ContactUpdate) : M UpdateResult :=
  λ w, let r := update_reply gw (count is_update (log w)) in
       (Normal r, mkWorld (flow w) (timers w) (nextTimer w) (log w ++ [EvUpdate id c r])).

Definition functions_invoke (b : InvokeBody.t) : M InvokeResult :=
  λ w, let r := invoke_reply gw (count is_invoke (log w)) in
       (Normal r, mkWorld (flow w) (timers w) (nextTimer w) (log w ++ [EvInvoke b r])).

Definition leads_query (id : string) : M QueryResult :=
  λ w, let r := query_reply gw (count is_query (log w)) in
       (Normal r, mkWorld (flow w) (timers w) (nextTimer w) (log w ++ [EvQuery id r])).

Definition matcher (description : string) (cats : list CategoryForMatching.t)
  : M MatchResult :=
  λ w, let r := matcher_reply gw (count is_match (log w)) in
       (Normal r,
        mkWorld (flow w) (timers w) (nextTimer w) (log w ++ [EvMatch description cats r])).
End Gateways.

(** ** The answer formatter *)

Definition formatAnswer (answer : QuestionAnswer.t) : FormattedAnswer.t :=
  {| FormattedAnswer.question := QuestionAnswer.question answer;
     FormattedAnswer.type := QuestionAnswer.type answer;
     FormattedAnswer.answers := QuestionAnswer.answers answer;
     FormattedAnswer.options := QuestionAnswer.options answer |}.

(** The inner [reduce]: starts from [{}] and assigns
    [catAcc[questionId]] for every entry. *)
Definition formatCategoryAnswers (categoryAnswers : gmap string QuestionAnswer.t)
  : PlainObject FormattedAnswer.t :=
  map_fold (λ questionId answer catAcc, assign questionId (formatAnswer answer) catAcc)
    emptyObject categoryAnswers.

(** The outer [reduce] over [Object.entries(answers)], assigning
    [acc[category]]. *)
Definition formatAnswersForJson (answers : AnswersState) : FormattedAnswers :=
  map_fold
    (λ category categoryAnswers acc,
       assign category (formatCategoryAnswers (default ∅ categoryAnswers)) acc)
    emptyObject answers.

(** [answers[currentCategory]?.Q1?.answers[0]] *)
Definition firstAnswerOf (answers : AnswersState) (currentCategory : option string)
  : option string :=
  categoryAnswers ← mjoin (answers !! js_key currentCategory);
  q1 ← categoryAnswers !! "Q1";
  QuestionAnswer.answers q1 !! 0.

(** ** The poller *)

Definition timeoutToast : Toast :=
  errorToast "Estimate generation timed out. Please try again.".

Definition genericPollText : string :=
  "Failed to generate estimate. Please try again.".

Definition startFailedToast : Toast :=
  errorToast "Failed to start estimate generation. Please try again.".

Definition contractorRequiredToast : Toast :=
  errorToast "Contractor ID is required".

Definition contactFailedToast : Toast :=
  errorToast "Failed to process your information. Please try again.".

Definition skipFailedToast : Toast :=
  errorToast "Failed to process your request. Please try again.".

Section Poller.
Variable gw : Gateway.

Definition checkEstimateStatus (leadId : string) : M bool :=
  try_catch
    (r ← leads_query gw leadId;
     match r with
     | QueryError error => throw error
     | QueryNoRow => mret false
     | QueryRow lead =>
         if bool_decide (LeadRow.status lead = Some "error") then
           setIsGeneratingEstimate false;;
           throw (newError (or_else (LeadRow.error_message lead)
                              "Failed to generate estimate"))
         else if bool_decide (LeadRow.status lead = Some "complete")
                 && truthy_json (LeadRow.estimate_data lead) then
           setEstimate (LeadRow.estimate_data lead);;
           setIsGeneratingEstimate false;;
           setStage stage_estimate;;
           mret true
         else mret false
     end)
    (λ error, throw error).

(** The text shown by the [catch] of the interval callback. *)
Definition pollErrorText (error : JsError) : string :=
  if instanceofError error then message error else genericPollText.

(** The callback handed to [setInterval], for the interval [h] whose
    closure holds [t]. *)
Definition pollCallback (h : nat) (t : PollTimer) : M unit :=
  try_catch
    (elapsed ← advanceElapsed h t;
     if bool_decide (ESTIMATE_TIMEOUT ≤ elapsed)%Z then
       clearInterval h;;
       setIsGeneratingEstimate false;;
       toast timeoutToast
     else
       isComplete ← checkEstimateStatus (timer_leadId t);
       if isComplete : bool then clearInterval h else mret tt)
    (λ error,
       clearInterval h;;
       setIsGeneratingEstimate false;;
       toast (errorToast (pollErrorText error))).

(** One firing of the timer [h]; a cleared interval does not fire. *)
Definition pollTick (h : nat) : M unit :=
  λ w, match timers w !! h with
       | Some t => pollCallback h t w
       | None => (Normal tt, w)
       end.
End Poller.

(** ** The handlers of one render *)

Section Render.
Variable config : EstimateConfig.
Variable gw : Gateway.
(** The state captured by the closures of this render. *)
Variable snap : FlowState.

Definition handlePhotoUpload (urls : list string) : M unit :=
  setUploadedPhotos urls;;
  (if bool_decide (0 < length urls) then setUploadedImageUrl (urls !! 0)
   else mret tt);;
  setStage stage_description.

Definition categoriesForMatching : list CategoryForMatching.t :=
  (λ category,
     {| CategoryForMatching.id := Category.id category;
        CategoryForMatching.name := Category.name category;
        CategoryForMatching.description := Category.description category;
        CategoryForMatching.icon := Category.icon category;
        CategoryForMatching.keywords := default [] (Category.keywords category);
        CategoryForMatching.questions := default [] (Category.questions category) |})
  <$> categories snap.

Definition handleDescriptionSubmit (description : string) : M unit :=
  setProjectDescription description;;
  r ← matcher gw description categoriesForMatching;
  match r with
  | MatchThrows error => throw error
  | MatchSets consolidatedSets =>
      if bool_decide (length consolidatedSets = 0) then setStage stage_category
      else
        (if truthy_opt (CategoryQuestions.category <$> consolidatedSets !! 0) then
           setSelectedCategory (CategoryQuestions.category <$> consolidatedSets !! 0)
         else mret tt);;
        setMatchedQuestionSets consolidatedSets;;
        setStage stage_questions
  end.

Definition handleCategorySelect (categoryId : string) : M unit :=
  setSelectedCategory (Some categoryId);;
  setStage stage_questions.

(** The [body] of the [generate-estimate] invocation. *)
Definition invokeBody (leadId : string) : InvokeBody.t :=
  {| InvokeBody.leadId := leadId;
     InvokeBody.contractorId := contractorId config;
     InvokeBody.projectDescription := projectDescription snap;
     InvokeBody.category := selectedCategory snap;
     InvokeBody.imageUrl := uploadedImageUrl snap;
     InvokeBody.projectImages := uploadedPhotos snap |}.

(** [startEstimateGeneration] up to its first [await]: what has happened
    when the call returns its pending promise to the caller.  The flag is
    set and the invocation has been issued. *)
Definition startEstimateGeneration_issue (leadId : string) : M InvokeResult :=
  setIsGeneratingEstimate true;;
  functions_invoke gw (invokeBody leadId).

Definition startEstimateGeneration (leadId : string) : M unit :=
  try_catch
    (r ← startEstimateGeneration_issue leadId;
     match r with
     | InvokeError error => throw error
     | InvokeOk => pollInterval ← setInterval leadId; mret tt
     end)
    (λ error,
       setIsGeneratingEstimate false;;
       toast startFailedToast).

(** [.insert(leadData).select().single()] followed by the two checks
    [if (leadError) throw leadError] and [if (!lead?.id) throw ...]
    that each of the three creating handlers repeats; yields [lead.id]. *)
Definition insertLead (leadData : LeadInsert.t) : M string :=
  r ← leads_insert gw leadData;
  match r with
  | InsertError leadError => throw leadError
  | InsertData id =>
      if truthy_opt id then mret (default "" id)
      else throw (newError "Failed to create lead - no ID returned")
  end.

(** [matchedQuestionSets[0]?.category] *)
Definition currentCategory : option string :=
  CategoryQuestions.category <$> matchedQuestionSets snap !! 0.

(** [leadData] of [handleQuestionComplete]. *)
Definition questionsLeadData (answers : AnswersState) : LeadInsert.t :=
  let firstAnswer := firstAnswerOf answers currentCategory in
  {| LeadInsert.project_description :=
       or_else (Some (or_else firstAnswer (projectDescription snap))) "New project";
     LeadInsert.project_title := or_else currentCategory "New" +:+ " Project";
     LeadInsert.answers := formatAnswersForJson answers;
     LeadInsert.category := currentCategory;
     LeadInsert.status := "pending";
     LeadInsert.contractor_id := contractorId config;
     LeadInsert.project_images := uploadedPhotos snap;
     LeadInsert.user_name := None;
     LeadInsert.user_email := None;
     LeadInsert.user_phone := None;
     LeadInsert.project_address := None;
     LeadInsert.is_test_estimate := None |}.

Definition handleQuestionComplete (answers : AnswersState) : M unit :=
  if negb (truthy_opt (contractorId config)) then
    toast contractorRequiredToast
  else
    setAnswers answers;;
    setStage stage_loading;;
    try_catch
      (id ← insertLead (questionsLeadData answers);
       setCurrentLeadId (Some id);;
       setIsGeneratingEstimate true;;
       setStage stage_contact;;
       startEstimateGeneration id)
      (λ error,
         toast startFailedToast;;
         setStage stage_questions).

(** The object passed to [.update(...)] by [handleContactSubmit]. *)
Definition contactUpdate (contactData : ContactData) : ContactUpdate :=
  {| upd_user_name := fullName contactData;
     upd_user_email := email contactData;
     upd_user_phone := phone contactData;
     upd_project_address := address contactData |}.

(** [leadData] of [handleContactSubmit]. *)
Definition contactLeadData (contactData : ContactData) : LeadInsert.t :=
  let firstAnswer := firstAnswerOf (answers snap) currentCategory in
  let formattedAnswers := formatAnswersForJson (answers snap) in
  {| LeadInsert.project_description :=
       or_else (Some (or_else firstAnswer (projectDescription snap))) "New project";
     LeadInsert.project_title := or_else currentCategory "New" +:+ " Project";
     LeadInsert.answers := formattedAnswers;
     LeadInsert.category := currentCategory;
     LeadInsert.status := "pending";
     LeadInsert.contractor_id := contractorId config;
     LeadInsert.project_images := uploadedPhotos snap;
     LeadInsert.user_name := Some (fullName contactData);
     LeadInsert.user_email := Some (email contactData);
     LeadInsert.user_phone := Some (phone contactData);
     LeadInsert.project_address := Some (address contactData);
     LeadInsert.is_test_estimate := None |}.

Definition handleContactSubmit (contactData : ContactData) : M unit :=
  try_catch
    ((if negb (truthy_opt (contractorId config)) then
        throw (newError "Contractor ID is required")
      else mret tt);;
     if truthy_opt (currentLeadId snap) then
       updateError ← leads_update gw (default "" (currentLeadId snap))
                       (contactUpdate contactData);
       match updateError with
       | UpdateError e => throw e
       | UpdateOk =>
           if negb (isGeneratingEstimate snap) then
             startEstimateGeneration (default "" (currentLeadId snap))
           else mret tt
       end
     else
       id ← insertLead (contactLeadData contactData);
       setCurrentLeadId (Some id);;
       startEstimateGeneration id)
    (λ error,
       toast contactFailedToast;;
       setIsGeneratingEstimate false).

(** [leadData] of [handleSkip]. *)
Definition skipLeadData : LeadInsert.t :=
  let formattedAnswers := formatAnswersForJson (answers snap) in
  {| LeadInsert.project_description :=
       or_else (Some (projectDescription snap)) "Test project";
     LeadInsert.project_title := "Test Project";
     LeadInsert.answers := formattedAnswers;
     LeadInsert.category := selectedCategory snap;
     LeadInsert.status := "pending";
     LeadInsert.contractor_id := contractorId config;
     LeadInsert.project_images := uploadedPhotos snap;
     LeadInsert.user_name := None;
     LeadInsert.user_email := None;
     LeadInsert.user_phone := None;
     LeadInsert.project_address := None;
     LeadInsert.is_test_estimate := Some true |}.

Definition handleSkip : M unit :=
  if negb (truthy_opt (contractorId config)) then mret tt
  else
    try_catch
      (setIsGeneratingEstimate true;;
       id ← insertLead skipLeadData;
       setCurrentLeadId (Some id);;
       startEstimateGeneration id;;
       setStage stage_estimate)
      (λ error,
         toast skipFailedToast;;
         setIsGeneratingEstimate false).
End Render.

(** ** Sessions

    The external triggers of the wizard, and the timer.  In a session
    ([run]) every trigger runs to completion, and the hook renders again,
    before the next trigger starts: [step] runs the handler of the current
    render, whose closure holds the current state.  A call made from the
    closure of an older render is a handler applied to a snapshot [snap]
    that differs from the current state; what is stated of the handlers
    themselves, for every [snap], covers such calls too. *)

Inductive Trigger : Type :=
| SubmitPhotos (urls : list string)
| SubmitDescription (description : string)
| SelectCategory (categoryId : string)
| CompleteQuestions (answers : AnswersState)
| SubmitContact (contactData : ContactData)
| Skip
| Tick (h : nat).

Definition handler (config : EstimateConfig) (gw : Gateway) (snap : FlowState)
    (t : Trigger) : M unit :=
  match t with
  | SubmitPhotos urls => handlePhotoUpload urls
  | SubmitDescription d => handleDescriptionSubmit gw snap d
  | SelectCategory c => handleCategorySelect c
  | CompleteQuestions a => handleQuestionComplete config gw snap a
  | SubmitContact c => handleContactSubmit config gw snap c
  | Skip => handleSkip config gw snap
  | Tick h => pollTick gw h
  end.

Definition step (config : EstimateConfig) (gw : Gateway) (t : Trigger) (w : World)
  : World :=
  (handler config gw (flow w) t w).2.

Definition run (config : EstimateConfig) (gw : Gateway) (ts : list Trigger) (w : World)
  : World :=
  foldl (λ w t, step config gw t w) w ts.

(** ** Outcomes of gateway calls, and sample data used by the examples *)

Definition sample_answer : QuestionAnswer.t :=
  QuestionAnswer.mk "What kind of roof?" "single_choice" ["tile"]
    [mkQuestionOption "Tile" "tile"; mkQuestionOption "Metal" "metal"].

(** An answer state whose only category is named "__proto__", as
    [JSON.parse] or a computed key builds it. *)
Definition proto_answers : AnswersState :=
  {[ "__proto__" := Some {[ "Q1" := sample_answer ]} ]}.

Definition sample_answers : AnswersState :=
  {[ "roofing" := Some {[ "Q1" := sample_answer ]} ]}.

Definition polling_world : World :=
  mkWorld (with_isGeneratingEstimate true initialFlow)
    {[ 0 := mkPollTimer "lead-1" 0 ]} 1 [].

Definition complete_without_data : Gateway :=
  mkGateway (λ _, InsertData (Some "lead-1")) (λ _, UpdateOk) (λ _, InvokeOk)
    (λ _, QueryRow (LeadRow.mk JNull (Some "complete") None))
    (λ _, MatchSets []).

(** A status that ends the poll: [error], or [complete] with data. *)
Definition terminal_status (lead : LeadRow.t) : bool :=
  bool_decide (LeadRow.status lead = Some "error")
  || (bool_decide (LeadRow.status lead = Some "complete")
      && truthy_json (LeadRow.estimate_data lead)).

(** A reply after which the poll goes on: the query succeeded and found no
    row, or a row without a terminal status. *)
Definition pending (r : QueryResult) : bool :=
  match r with
  | QueryError _ => false
  | QueryNoRow => true
  | QueryRow lead => negb (terminal_status lead)
  end.

(** A reply in which a tick observes a terminal lead status. *)
Definition observes_terminal (r : QueryResult) : bool :=
  match r with
  | QueryRow lead => terminal_status lead
  | _ => false
  end.

(** No row is found yet; the fifth status query fails. *)
Definition fifth_query_fails : Gateway :=
  mkGateway (λ _, InsertData (Some "lead-1")) (λ _, UpdateOk) (λ _, InvokeOk)
    (λ n, if n =? 4 then QueryError (mkJsError false "network error")
          else QueryNoRow)
    (λ _, MatchSets []).

Definition always_pending : Gateway :=
  mkGateway (λ _, InsertData (Some "lead-1")) (λ _, UpdateOk) (λ _, InvokeOk)
    (λ _, QueryRow (LeadRow.mk JNull (Some "pending") None))
    (λ _, MatchSets []).

Definition sample_config : EstimateConfig := mkConfig (Some "contractor-1").

Definition no_row_yet : Gateway :=
  mkGateway (λ _, InsertData (Some "lead-1")) (λ _, UpdateOk) (λ _, InvokeOk)
    (λ _, QueryNoRow) (λ _, MatchSets []).

(** The gateway rejects every status query with an error object that is
    not an [Error] instance and carries a message. *)
Definition queries_rejected : Gateway :=
  mkGateway (λ _, InsertData (Some "lead-1")) (λ _, UpdateOk) (λ _, InvokeOk)
    (λ _, QueryError (mkJsError false "permission denied for table leads"))
    (λ _, MatchSets []).

(** A reply to an insert from which no lead id can be taken: the gateway
    reported an error, or the returned row has no id. *)
Definition insert_failed (r : InsertResult) : bool :=
  match r with
  | InsertError _ => true
  | InsertData id => negb (truthy_opt id)
  end.

Definition update_failed (r : UpdateResult) : bool :=
  match r with
  | UpdateError _ => true
  | UpdateOk => false
  end.

(** [lead.id] of a reply that did not fail. *)
Definition insert_id (r : InsertResult) : string :=
  match r with
  | InsertError _ => ""
  | InsertData id => default "" id
  end.

(** The first insert is rejected, every later one returns ["lead-2"]. *)
Definition first_insert_rejected : Gateway :=
  mkGateway
    (λ n, match n with
          | 0 => InsertError (mkJsError false "duplicate key value")
          | S _ => InsertData (Some "lead-2")
          end)
    (λ _, UpdateOk) (λ _, InvokeOk) (λ _, QueryNoRow) (λ _, MatchSets []).


(** The first insert returns ["lead-1"], every later one is rejected. *)
Definition later_inserts_rejected : Gateway :=
  mkGateway
    (λ n, match n with
          | 0 => InsertData (Some "lead-1")
          | S _ => InsertError (mkJsError false "duplicate key value")
          end)
    (λ _, UpdateOk) (λ _, InvokeOk) (λ _, QueryNoRow) (λ _, MatchSets []).

Definition roofing_set : CategoryQuestions.t :=
  CategoryQuestions.mk "roofing" [mkQuestionDef "Q1" "What kind of roof?"].

Definition matcher_finds_roofing : Gateway :=
  mkGateway (λ _, InsertData (Some "lead-1")) (λ _, UpdateOk) (λ _, InvokeOk)
    (λ _, QueryNoRow) (λ _, MatchSets [roofing_set]).

(** A consolidated set whose category is the empty string. *)
Definition unnamed_set : CategoryQuestions.t :=
  CategoryQuestions.mk "" [mkQuestionDef "Q1" "What do you need?"].

Definition matcher_finds_unnamed : Gateway :=
  mkGateway (λ _, InsertData (Some "lead-1")) (λ _, UpdateOk) (λ _, InvokeOk)
    (λ _, QueryNoRow) (λ _, MatchSets [unnamed_set]).

Definition sample_contact : ContactData :=
  mkContact "Ada Mason" "ada@example.org" "555-0100" "1 Main Street".

(** ** Session invariants, and further sample data *)

Definition matcher_unavailable : Gateway :=
  mkGateway (λ _, InsertData (Some "lead-1")) (λ _, UpdateOk) (λ _, InvokeOk)
    (λ _, QueryNoRow) (λ _, MatchThrows (mkJsError true "matcher unavailable")).

(** Every insert succeeds and every invocation of the job fails. *)
Definition job_unavailable : Gateway :=
  mkGateway (λ _, InsertData (Some "lead-1")) (λ _, UpdateOk)
    (λ _, InvokeError (mkJsError true "function not deployed"))
    (λ _, QueryNoRow) (λ _, MatchSets []).

(** The estimate job failed and left a message and partial data. *)
Definition job_failed : Gateway :=
  mkGateway (λ _, InsertData (Some "lead-1")) (λ _, UpdateOk) (λ _, InvokeOk)
    (λ _, QueryRow (LeadRow.mk (JString "partial") (Some "error")
                      (Some "model quota exceeded")))
    (λ _, MatchSets []).

(** The lead a gateway call is about. *)
Definition target (e : Event) : option string :=
  match e with
  | EvUpdate id _ _ => Some id
  | EvInvoke b _ => Some (InvokeBody.leadId b)
  | EvQuery id _ => Some id
  | _ => None
  end.

(** The lead id an insert handed back, if it is one the hook accepts. *)
Definition created_id (e : Event) : option string :=
  match e with
  | EvInsert _ (InsertData (Some id)) => if truthy_string id then Some id else None
  | _ => None
  end.

Definition created_ids (l : list Event) : list string := omap created_id l.

(** Every call about a lead comes after an insert that returned that
    lead's id; [seen] are the ids returned before [l]. *)
Fixpoint ordered_from (seen : list string) (l : list Event) : Prop :=
  match l with
  | [] => True
  | e :: l =>
      (match target e with
       | Some id => id ∈ seen
       | None => True
       end)
      ∧ ordered_from (seen ++ option_list (created_id e)) l
  end.

Record SessionInv (config : EstimateConfig) (w : World) : Prop := mkSessionInv {
  inv_lead : ∀ id, currentLeadId (flow w) = Some id →
             truthy_string id = true ∧ id ∈ created_ids (log w);
  inv_timer_lead : ∀ h t, timers w !! h = Some t →
                   timer_leadId t ∈ created_ids (log w)
                   ∧ truthy_opt (currentLeadId (flow w)) = true;
  inv_timer_clock : ∀ h t, timers w !! h = Some t →
                    ∃ k : nat, k ≤ 39 ∧ timeElapsed t = (POLL_INTERVAL * Z.of_nat k)%Z;
  inv_ordered : ordered_from [] (log w);
  inv_inserts : ∀ d r, EvInsert d r ∈ log w →
                LeadInsert.status d = "pending"
                ∧ LeadInsert.contractor_id d = contractorId config
                ∧ truthy_opt (contractorId config) = true
                ∧ truthy_string (LeadInsert.project_description d) = true;
  inv_flag : isGeneratingEstimate (flow w) = true → ∃ h t, timers w !! h = Some t;
  inv_unwritten : progress (flow w) = 0%Z ∧ completedCategories (flow w) = []
}.

Definition rebuilt_answers : AnswersState :=
  <["roofing" := Some (<["Q1" := sample_answer]> ∅)]> ∅.

Definition polled_once : list Trigger :=
  [CompleteQuestions sample_answers; Tick 0].

(** * Properties *)

(** ** Logs and runs *)

Lemma count_snoc (p : Event → bool) (l : list Event) (e : Event) :
  count p (l ++ [e]) = count p l + (if p e then 1 else 0).
Proof.
  unfold count. rewrite filter_app, length_app. f_equal.
  rewrite filter_cons, filter_nil. destruct (p e); by case_decide.
Qed.

Lemma run_snoc (config : EstimateConfig) (gw : Gateway) (ts : list Trigger)
    (t : Trigger) (w : World) :
  run config gw (ts ++ [t]) w = step config gw t (run config gw ts w).
Proof. unfold run. by rewrite foldl_app. Qed.

Lemma run_cons (config : EstimateConfig) (gw : Gateway) (ts : list Trigger)
    (t : Trigger) (w : World) :
  run config gw (t :: ts) w = run config gw ts (step config gw t w).
Proof. reflexivity. Qed.

Lemma count_app (p : Event → bool) (l1 l2 : list Event) :
  count p (l1 ++ l2) = count p l1 + count p l2.
Proof. unfold count. by rewrite filter_app, length_app. Qed.

Lemma count_cons (p : Event → bool) (e : Event) (l : list Event) :
  count p (e :: l) = (if p e then 1 else 0) + count p l.
Proof. unfold count. rewrite filter_cons. destruct (p e); by case_decide. Qed.

Lemma count_nil (p : Event → bool) : count p [] = 0.
Proof. reflexivity. Qed.

(** Splits the count of a log extended by explicit events. *)
Ltac count_norm :=
  repeat (rewrite count_app || rewrite count_cons || rewrite count_nil); simpl.

(** Unfolds the monadic plumbing of a handler body. *)
Ltac flow_simpl :=
  unfold insertLead, leads_insert, leads_update, functions_invoke, leads_query,
    matcher, try_catch;
  unfold mbind, M_bind, throw; simpl.

(** ** The answer formatter *)

(** The two [reduce]s, in closed form: every entry other than the one
    named "__proto__" becomes an own property, and the entry named
    "__proto__", if there is one, becomes the prototype. *)
Lemma fold_assign {A B : Type} (f : A → B) (m : gmap string A) :
  map_fold (λ key value acc, assign key (f value) acc) emptyObject m
  = mkPlainObject (f <$> delete "__proto__" m) (f <$> m !! "__proto__").
Proof.
  induction m as [|k v m Hk Hfold IH] using map_first_key_ind.
  - by rewrite map_fold_empty, delete_empty, fmap_empty, lookup_empty.
  - rewrite map_fold_insert_first_key by done. rewrite IH. unfold assign. simpl.
    case_bool_decide as Hp.
    + subst k. by rewrite delete_insert_eq, lookup_insert_eq.
    + by rewrite delete_insert_ne, fmap_insert, lookup_insert_ne.
Qed.

Lemma formatCategoryAnswers_eq (m : gmap string QuestionAnswer.t) :
  formatCategoryAnswers m
  = mkPlainObject (formatAnswer <$> delete "__proto__" m)
      (formatAnswer <$> m !! "__proto__").
Proof. apply fold_assign. Qed.

Lemma formatAnswersForJson_eq (answers : AnswersState) :
  formatAnswersForJson answers
  = mkPlainObject
      ((λ categoryAnswers : option (gmap string QuestionAnswer.t),
          formatCategoryAnswers (default ∅ categoryAnswers))
       <$> delete "__proto__" answers)
      ((λ categoryAnswers : option (gmap string QuestionAnswer.t),
          formatCategoryAnswers (default ∅ categoryAnswers))
       <$> answers !! "__proto__").
Proof.
  apply (fold_assign
           (λ categoryAnswers : option (gmap string QuestionAnswer.t),
              formatCategoryAnswers (default ∅ categoryAnswers))).
Qed.

(** C8. The formatter does not preserve a key named "__proto__".  For an
    answer state with a category of that name, the result has no own
    property of that name, so its keys are not those of the input: the
    formatted category has become the result's prototype instead.  The
    same happens to a question id of that name inside a category. *)
Theorem formatAnswersForJson_drops_proto_key (answers : AnswersState)
    (categoryAnswers : option (gmap string QuestionAnswer.t)) :
  answers !! "__proto__" = Some categoryAnswers →
  own (formatAnswersForJson answers) !! "__proto__" = None
  ∧ dom (own (formatAnswersForJson answers)) = dom answers ∖ {["__proto__"]}
  ∧ dom (own (formatAnswersForJson answers)) ≠ dom answers
  ∧ proto (formatAnswersForJson answers)
    = Some (formatCategoryAnswers (default ∅ categoryAnswers))
  ∧ (∀ (m : gmap string QuestionAnswer.t) answer,
       m !! "__proto__" = Some answer →
       own (formatCategoryAnswers m) !! "__proto__" = None
       ∧ dom (own (formatCategoryAnswers m)) ≠ dom m
       ∧ proto (formatCategoryAnswers m) = Some (formatAnswer answer)).
Proof.
  assert (Hdom : ∀ (A : Type) (m : gmap string A),
            is_Some (m !! "__proto__") → dom m ∖ {["__proto__"]} ≠ dom m).
  { intros A m Hsome Heq.
    assert (Hin : "__proto__" ∈ dom m) by (by apply elem_of_dom).
    rewrite <- Heq in Hin. apply elem_of_difference in Hin as [_ Hnot].
    apply Hnot. by apply elem_of_singleton. }
  intros Hp. rewrite formatAnswersForJson_eq. simpl.
  rewrite lookup_fmap, lookup_delete_eq, dom_fmap_L, dom_delete_L, Hp. simpl.
  split; [done|]. split; [done|]. split; [by apply Hdom|]. split; [done|].
  intros m answer Hm. rewrite formatCategoryAnswers_eq. simpl.
  rewrite lookup_fmap, lookup_delete_eq, dom_fmap_L, dom_delete_L, Hm. simpl.
  split; [done|]. split; [by apply Hdom|done].
Qed.

Lemma formatAnswersForJson_drops_proto_key_witness :
  own (formatAnswersForJson proto_answers) = ∅
  ∧ dom (own (formatAnswersForJson proto_answers)) ≠ dom proto_answers.
Proof.
  destruct (formatAnswersForJson_drops_proto_key proto_answers
              (Some {[ "Q1" := sample_answer ]}) eq_refl)
    as (_ & _ & Hne & _).
  split; [reflexivity|exact Hne].
Defined.

(** ** Photo upload *)

(** C10. [handlePhotoUpload] always ends in stage [description], also for
    an empty list; it stores the list as the uploaded photos; it sets
    [uploadedImageUrl] to the first URL when the list is non-empty and
    leaves it as it was otherwise.  Nothing else changes. *)
Theorem handlePhotoUpload_spec (urls : list string) (w : World) :
  handlePhotoUpload urls w
  = (Normal tt,
     mkWorld
       (mkFlow stage_description
          (match urls with
           | [] => uploadedImageUrl (flow w)
           | first :: _ => Some first
           end)
          urls
          (projectDescription (flow w)) (currentLeadId (flow w))
          (selectedCategory (flow w)) (completedCategories (flow w))
          (matchedQuestionSets (flow w)) (progress (flow w)) (estimate (flow w))
          (categories (flow w)) (isLoading (flow w))
          (isGeneratingEstimate (flow w)) (answers (flow w)))
       (timers w) (nextTimer w) (log w)).
Proof.
  destruct urls as [|first rest]; reflexivity.
Qed.

(** ** The poller *)

(** The world after one firing of an active timer, case by case. *)
Lemma pollTick_active (gw : Gateway) (h : nat) (t : PollTimer) (w : World) :
  timers w !! h = Some t →
  pollTick gw h w =
    let elapsed := (timeElapsed t + POLL_INTERVAL)%Z in
    let ticking := <[h := mkPollTimer (timer_leadId t) elapsed]> (timers w) in
    let stopped := delete h (timers w) in
    let cleared := with_isGeneratingEstimate false (flow w) in
    if bool_decide (ESTIMATE_TIMEOUT ≤ elapsed)%Z then
      (Normal tt, mkWorld cleared stopped (nextTimer w) (log w ++ [EvToast timeoutToast]))
    else
      let r := query_reply gw (count is_query (log w)) in
      let queried := log w ++ [EvQuery (timer_leadId t) r] in
      match r with
      | QueryError error =>
          (Normal tt,
           mkWorld cleared stopped (nextTimer w)
             (queried ++ [EvToast (errorToast (pollErrorText error))]))
      | QueryNoRow => (Normal tt, mkWorld (flow w) ticking (nextTimer w) queried)
      | QueryRow lead =>
          if bool_decide (LeadRow.status lead = Some "error") then
            (Normal tt,
             mkWorld cleared stopped (nextTimer w)
               (queried ++
                [EvToast (errorToast (or_else (LeadRow.error_message lead)
                                        "Failed to generate estimate"))]))
          else if bool_decide (LeadRow.status lead = Some "complete")
                  && truthy_json (LeadRow.estimate_data lead) then
            (Normal tt,
             mkWorld
               (with_stage stage_estimate
                  (with_isGeneratingEstimate false
                     (with_estimate (LeadRow.estimate_data lead) (flow w))))
               stopped (nextTimer w) queried)
          else (Normal tt, mkWorld (flow w) ticking (nextTimer w) queried)
      end.
Proof.
  intros Ht. unfold pollTick. rewrite Ht.
  unfold pollCallback, checkEstimateStatus, try_catch, mbind, M_bind, advanceElapsed.
  simpl. case_bool_decide as Hto; simpl.
  - by rewrite delete_insert_eq.
  - destruct (query_reply gw (count is_query (log w))) as [error| |lead]; simpl.
    + by rewrite delete_insert_eq.
    + done.
    + case_bool_decide as Herr; simpl.
      * by rewrite delete_insert_eq.
      * destruct (bool_decide (LeadRow.status lead = Some "complete")
                  && truthy_json (LeadRow.estimate_data lead)); simpl;
          [by rewrite delete_insert_eq|done].
Qed.

Lemma pollTick_inactive (gw : Gateway) (h : nat) (w : World) :
  timers w !! h = None → pollTick gw h w = (Normal tt, w).
Proof. intros Ht. unfold pollTick. by rewrite Ht. Qed.

(** C9. A tick that finds the lead with status [complete] but without
    estimate data makes [checkEstimateStatus] return [false], keeps the
    interval running and leaves the whole hook state (stage, estimate and
    [isGeneratingEstimate] included) as it was; a tick that finds status
    [complete] with estimate data stores the data, clears
    [isGeneratingEstimate], moves to stage [estimate] and stops the
    interval; and no other tick changes the stage or the stored estimate. *)
Theorem complete_status_needs_estimate_data (gw : Gateway) (h : nat) (t : PollTimer)
    (w : World) :
  timers w !! h = Some t →
  let reply := query_reply gw (count is_query (log w)) in
  let in_time := (timeElapsed t + POLL_INTERVAL < ESTIMATE_TIMEOUT)%Z in
  let w' := (pollTick gw h w).2 in
  (∀ lead,
     in_time → reply = QueryRow lead →
     LeadRow.status lead = Some "complete" →
     truthy_json (LeadRow.estimate_data lead) = false →
     (checkEstimateStatus gw (timer_leadId t) w).1 = Normal false
     ∧ flow w' = flow w
     ∧ is_Some (timers w' !! h))
  ∧ (∀ lead,
       in_time → reply = QueryRow lead →
       LeadRow.status lead = Some "complete" →
       truthy_json (LeadRow.estimate_data lead) = true →
       (checkEstimateStatus gw (timer_leadId t) w).1 = Normal true
       ∧ estimate (flow w') = LeadRow.estimate_data lead
       ∧ isGeneratingEstimate (flow w') = false
       ∧ stage (flow w') = stage_estimate
       ∧ timers w' !! h = None)
  ∧ (stage (flow w') ≠ stage (flow w) ∨ estimate (flow w') ≠ estimate (flow w) →
     ∃ lead,
       in_time ∧ reply = QueryRow lead
       ∧ LeadRow.status lead = Some "complete"
       ∧ truthy_json (LeadRow.estimate_data lead) = true).
Proof.
  intros Ht reply in_time w'. subst w'. rewrite (pollTick_active gw h t w Ht).
  fold reply. unfold checkEstimateStatus, try_catch, mbind, M_bind, leads_query.
  simpl. fold reply. split; [|split].
  - intros lead Hin Hr Hst Hdata. rewrite Hr. simpl.
    rewrite (bool_decide_eq_false_2 (ESTIMATE_TIMEOUT ≤ _)%Z)
      by (unfold in_time in Hin; lia).
    rewrite Hst, Hdata. simpl.
    by rewrite lookup_insert_eq.
  - intros lead Hin Hr Hst Hdata. rewrite Hr. simpl.
    rewrite (bool_decide_eq_false_2 (ESTIMATE_TIMEOUT ≤ _)%Z)
      by (unfold in_time in Hin; lia).
    rewrite Hst, Hdata. simpl.
    by rewrite lookup_delete_eq.
  - case_bool_decide as Hto; simpl; [intros [?|?]; done|].
    destruct reply as [error| |lead] eqn:Hr; simpl; try (intros [?|?]; done).
    case_bool_decide as Herr; simpl; [intros [?|?]; done|].
    case_bool_decide as Hc; simpl; [|intros [?|?]; done].
    destruct (truthy_json (LeadRow.estimate_data lead)) eqn:Hd; simpl;
      [|intros [?|?]; done].
    intros _. exists lead. unfold in_time. repeat split; try done. lia.
Qed.

Lemma complete_status_needs_estimate_data_witness :
  flow (pollTick complete_without_data 0 polling_world).2 = flow polling_world
  ∧ is_Some (timers (pollTick complete_without_data 0 polling_world).2 !! 0).
Proof.
  destruct (complete_status_needs_estimate_data complete_without_data 0
              (mkPollTimer "lead-1" 0) polling_world eq_refl) as (H & _ & _).
  destruct (H (LeadRow.mk JNull (Some "complete") None)) as (_ & Hflow & Htimer);
    [reflexivity|reflexivity|reflexivity|reflexivity|].
  split; [exact Hflow|exact Htimer].
Defined.

(** A tick in time whose reply is pending only advances the clock of the
    interval and logs the query. *)
Lemma pollTick_pending (gw : Gateway) (h : nat) (t : PollTimer) (w : World) :
  timers w !! h = Some t →
  (timeElapsed t + POLL_INTERVAL < ESTIMATE_TIMEOUT)%Z →
  pending (query_reply gw (count is_query (log w))) = true →
  pollTick gw h w
  = (Normal tt,
     mkWorld (flow w)
       (<[h := mkPollTimer (timer_leadId t) (timeElapsed t + POLL_INTERVAL)]> (timers w))
       (nextTimer w)
       (log w ++ [EvQuery (timer_leadId t) (query_reply gw (count is_query (log w)))])).
Proof.
  intros Ht Hin Hp. rewrite (pollTick_active gw h t w Ht). simpl.
  rewrite (bool_decide_eq_false_2 (ESTIMATE_TIMEOUT ≤ _)%Z) by lia.
  destruct (query_reply gw (count is_query (log w))) as [error| |lead];
    simpl in *; [done|done|].
  unfold terminal_status in Hp.
  destruct (bool_decide (LeadRow.status lead = Some "error")); [done|].
  simpl in Hp.
  by destruct (bool_decide (LeadRow.status lead = Some "complete")
               && truthy_json (LeadRow.estimate_data lead)).
Qed.

Lemma pollTick_timeout (gw : Gateway) (h : nat) (t : PollTimer) (w : World) :
  timers w !! h = Some t →
  (ESTIMATE_TIMEOUT ≤ timeElapsed t + POLL_INTERVAL)%Z →
  pollTick gw h w
  = (Normal tt,
     mkWorld (with_isGeneratingEstimate false (flow w)) (delete h (timers w))
       (nextTimer w) (log w ++ [EvToast timeoutToast])).
Proof.
  intros Ht Hto. rewrite (pollTick_active gw h t w Ht). simpl.
  by rewrite (bool_decide_eq_true_2 (ESTIMATE_TIMEOUT ≤ _)%Z) by lia.
Qed.

(** While every reply is pending, [n ≤ 39] ticks leave the interval
    running with [3000 * n] ms on its clock, and add [n] queries and no
    toast. *)
Lemma pending_ticks (config : EstimateConfig) (gw : Gateway) (h : nat)
    (leadId : string) (w : World) (n : nat) :
  timers w !! h = Some (mkPollTimer leadId 0) →
  (∀ k, pending (query_reply gw k) = true) →
  n ≤ 39 →
  let wn := run config gw (replicate n (Tick h)) w in
  timers wn !! h = Some (mkPollTimer leadId (POLL_INTERVAL * Z.of_nat n))
  ∧ flow wn = flow w
  ∧ nextTimer wn = nextTimer w
  ∧ count is_toast (log wn) = count is_toast (log w)
  ∧ count is_query (log wn) = count is_query (log w) + n.
Proof.
  intros Ht Hp. induction n as [|n IH]; intros Hn wn.
  - subst wn. simpl. rewrite Ht. repeat split; try done; lia.
  - subst wn. rewrite replicate_S_end, run_snoc.
    destruct IH as (IHt & IHf & IHn & IHtoast & IHq); [lia|].
    set (wn := run config gw (replicate n (Tick h)) w) in *.
    unfold step. simpl.
    rewrite (pollTick_pending gw h _ wn IHt); simpl;
      [|unfold POLL_INTERVAL, ESTIMATE_TIMEOUT; lia|apply Hp].
    rewrite lookup_insert_eq, !count_snoc. simpl.
    repeat split; try done; try lia.
    f_equal. f_equal. unfold POLL_INTERVAL. lia.
Qed.

(** Firings of a cleared interval change nothing. *)
Lemma ticks_inactive (config : EstimateConfig) (gw : Gateway) (h : nat) (n : nat)
    (w : World) :
  timers w !! h = None → run config gw (replicate n (Tick h)) w = w.
Proof.
  intros Ht. induction n as [|n IH]; [done|].
  rewrite replicate_S_end, run_snoc, IH. unfold step. simpl.
  by rewrite pollTick_inactive.
Qed.

(** C3 (as amended). When the job has started and every poll query
    succeeds without reporting a terminal status, the timer fires exactly
    40 times: the first 39 firings each query the lead and leave the
    interval running with no notification, and the 40th, at 120000 ms,
    queries nothing, fires the timeout notification, clears the interval
    and leaves [isGeneratingEstimate] false. *)
Theorem poll_times_out_on_tick_40 (config : EstimateConfig) (gw : Gateway)
    (snap : FlowState) (leadId : string) (w : World) :
  invoke_reply gw (count is_invoke (log w)) = InvokeOk →
  (∀ k, pending (query_reply gw k) = true) →
  let h := nextTimer w in
  let started := (startEstimateGeneration config gw snap leadId w).2 in
  let after n := run config gw (replicate n (Tick h)) started in
  (ESTIMATE_TIMEOUT = POLL_INTERVAL * 40)%Z
  ∧ (∀ n, n < 40 →
       is_Some (timers (after n) !! h)
       ∧ isGeneratingEstimate (flow (after n)) = true
       ∧ count is_toast (log (after n)) = count is_toast (log started)
       ∧ count is_query (log (after n)) = count is_query (log started) + n)
  ∧ log (after 40) = log (after 39) ++ [EvToast timeoutToast]
  ∧ timers (after 40) !! h = None
  ∧ isGeneratingEstimate (flow (after 40)) = false.
Proof.
  intros Hinv Hp h started after.
  assert (Hstart : timers started !! h = Some (mkPollTimer leadId 0)
                   ∧ isGeneratingEstimate (flow started) = true).
  { subst started h.
    unfold startEstimateGeneration, startEstimateGeneration_issue, try_catch,
    mbind, M_bind, functions_invoke.
    simpl. rewrite Hinv. simpl. by rewrite lookup_insert_eq. }
  destruct Hstart as [Ht Hflag].
  split; [reflexivity|]. split.
  - intros n Hn.
    destruct (pending_ticks config gw h leadId started n Ht Hp) as (H1 & H2 & _ & H3 & H4);
      [lia|].
    fold (after n) in H1, H2, H3, H4. rewrite H1, H2. eauto.
  - destruct (pending_ticks config gw h leadId started 39 Ht Hp) as (H1 & H2 & _);
      [lia|].
    fold (after 39) in H1, H2.
    assert (Hstep : after 40 = step config gw (Tick h) (after 39)).
    { unfold after. by rewrite (replicate_S_end 39), run_snoc. }
    rewrite Hstep. set (w39 := after 39) in *. clearbody w39. clear Hstep.
    unfold step, handler.
    rewrite (pollTick_timeout gw h _ w39 H1) by reflexivity.
    simpl. by rewrite lookup_delete_eq.
Qed.

Lemma poll_times_out_on_tick_40_witness :
  let started :=
    (startEstimateGeneration sample_config always_pending initialFlow "lead-1"
       initialWorld).2 in
  let w40 := run sample_config always_pending (replicate 40 (Tick 0)) started in
  timers w40 !! 0 = None ∧ isGeneratingEstimate (flow w40) = false.
Proof.
  destruct (poll_times_out_on_tick_40 sample_config always_pending initialFlow
              "lead-1" initialWorld eq_refl (λ k, eq_refl))
    as (_ & _ & _ & Hcleared & Hflag).
  split; [exact Hcleared|exact Hflag].
Defined.

(** C3, counterexample.  No firing ever observes a terminal lead status,
    yet the timeout notification never fires: the fifth status query
    fails, which stops the interval at the fifth firing with the generic
    failure notification, and every later firing does nothing. *)
Lemma query_failure_preempts_timeout :
  let started :=
    (startEstimateGeneration sample_config fifth_query_fails initialFlow "lead-1"
       initialWorld).2 in
  let w5 := run sample_config fifth_query_fails (replicate 5 (Tick 0)) started in
  (∀ k, observes_terminal (query_reply fifth_query_fails k) = false)
  ∧ timers w5 !! 0 = None
  ∧ count is_query (log w5) = 5
  ∧ count is_toast (log w5) = 1
  ∧ last (log w5) = Some (EvToast (errorToast genericPollText))
  ∧ last (log w5) ≠ Some (EvToast timeoutToast)
  ∧ ∀ n, run sample_config fifth_query_fails (replicate n (Tick 0)) w5 = w5.
Proof.
  cbv zeta.
  set (w5 := run sample_config fifth_query_fails (replicate 5 (Tick 0))
               (startEstimateGeneration sample_config fifth_query_fails initialFlow
                  "lead-1" initialWorld).2).
  assert (Hcleared : timers w5 !! 0 = None) by (by vm_compute).
  split; [|split; [done|split; [by vm_compute|split; [by vm_compute|split;
    [by vm_compute|split; [by vm_compute|]]]]]].
  - intros k. unfold fifth_query_fails. simpl. by destruct (k =? 4).
  - intros n. by apply ticks_inactive.
Qed.

(** C6 (as amended). On a tick in time, a query that finds no row changes
    nothing in the hook state and leaves the interval running; a query
    failure stops the interval at once (a later firing of it does nothing,
    so no query is repeated), clears [isGeneratingEstimate], keeps the
    stage, and surfaces one notification whose text is the thrown value's
    message when that value is an [Error] instance and the generic text
    otherwise. *)
Theorem poll_no_row_continues_query_failure_stops (gw : Gateway) (h : nat)
    (t : PollTimer) (w : World) :
  timers w !! h = Some t →
  (timeElapsed t + POLL_INTERVAL < ESTIMATE_TIMEOUT)%Z →
  let reply := query_reply gw (count is_query (log w)) in
  let w' := (pollTick gw h w).2 in
  (reply = QueryNoRow →
     flow w' = flow w
     ∧ is_Some (timers w' !! h)
     ∧ log w' = log w ++ [EvQuery (timer_leadId t) QueryNoRow])
  ∧ (∀ error,
       reply = QueryError error →
       timers w' !! h = None
       ∧ isGeneratingEstimate (flow w') = false
       ∧ stage (flow w') = stage (flow w)
       ∧ log w'
         = log w ++
           [EvQuery (timer_leadId t) (QueryError error);
            EvToast (errorToast (if instanceofError error then message error
                                 else genericPollText))]
       ∧ pollTick gw h w' = (Normal tt, w')).
Proof.
  intros Ht Hin reply w'. subst w'. rewrite (pollTick_active gw h t w Ht).
  fold reply. simpl.
  rewrite (bool_decide_eq_false_2 (ESTIMATE_TIMEOUT ≤ _)%Z) by lia.
  split.
  - intros Hr. rewrite Hr. simpl. by rewrite lookup_insert_eq.
  - intros error Hr. rewrite Hr. simpl.
    rewrite lookup_delete_eq, <- app_assoc. repeat split; try done.
    apply pollTick_inactive. simpl. apply lookup_delete_eq.
Qed.

Lemma poll_no_row_continues_query_failure_stops_witness :
  flow (pollTick no_row_yet 0 polling_world).2 = flow polling_world
  ∧ is_Some (timers (pollTick no_row_yet 0 polling_world).2 !! 0).
Proof.
  destruct (poll_no_row_continues_query_failure_stops no_row_yet 0
              (mkPollTimer "lead-1" 0) polling_world eq_refl eq_refl) as [H _].
  destruct (H eq_refl) as (Hflow & Htimer & _).
  split; [exact Hflow|exact Htimer].
Defined.

(** C6, counterexample.  The query fails with a backend message, and the
    notification shows the generic text, not that message. *)
Lemma poll_query_failure_generic_text :
  let w' := (pollTick queries_rejected 0 polling_world).2 in
  ∃ error,
    query_reply queries_rejected 0 = QueryError error
    ∧ message error = "permission denied for table leads"
    ∧ last (log w') = Some (EvToast (errorToast genericPollText))
    ∧ last (log w') ≠ Some (EvToast (errorToast (message error))).
Proof.
  exists (mkJsError false "permission denied for table leads").
  repeat split; try reflexivity. vm_compute. discriminate.
Qed.

(** ** The submission paths *)

Section HandlerEquations.
Variable config : EstimateConfig.
Variable gw : Gateway.
Variable snap : FlowState.

Lemma startEstimateGeneration_eq (leadId : string) (w : World) :
  startEstimateGeneration config gw snap leadId w =
    let r := invoke_reply gw (count is_invoke (log w)) in
    let invoked := log w ++ [EvInvoke (invokeBody config snap leadId) r] in
    match r with
    | InvokeOk =>
        (Normal tt,
         mkWorld (with_isGeneratingEstimate true (flow w))
           (<[nextTimer w := mkPollTimer leadId 0]> (timers w))
           (S (nextTimer w)) invoked)
    | InvokeError _ =>
        (Normal tt,
         mkWorld (with_isGeneratingEstimate false (flow w)) (timers w)
           (nextTimer w) (invoked ++ [EvToast startFailedToast]))
    end.
Proof.
  unfold startEstimateGeneration, startEstimateGeneration_issue, try_catch,
    mbind, M_bind, functions_invoke.
  simpl. by destruct (invoke_reply gw (count is_invoke (log w))).
Qed.

Lemma handleQuestionComplete_eq (answers : AnswersState) (w : World) :
  handleQuestionComplete config gw snap answers w =
    if truthy_opt (contractorId config) then
      let r := insert_reply gw (count is_insert (log w)) in
      let inserted := log w ++ [EvInsert (questionsLeadData config snap answers) r] in
      let loading := with_stage stage_loading (with_answers answers (flow w)) in
      if insert_failed r then
        (Normal tt,
         mkWorld (with_stage stage_questions loading) (timers w) (nextTimer w)
           (inserted ++ [EvToast startFailedToast]))
      else
        startEstimateGeneration config gw snap (insert_id r)
          (mkWorld
             (with_stage stage_contact
                (with_isGeneratingEstimate true
                   (with_currentLeadId (Some (insert_id r)) loading)))
             (timers w) (nextTimer w) inserted)
    else
      (Normal tt,
       mkWorld (flow w) (timers w) (nextTimer w)
         (log w ++ [EvToast contractorRequiredToast])).
Proof.
  unfold handleQuestionComplete.
  destruct (truthy_opt (contractorId config)); simpl; [|done].
  flow_simpl.
  destruct (insert_reply gw (count is_insert (log w))) as [e|id]; simpl; [done|].
  destruct (truthy_opt id); simpl; [|done].
  rewrite startEstimateGeneration_eq. simpl.
  by destruct (invoke_reply gw _).
Qed.

Lemma handleContactSubmit_eq (contactData : ContactData) (w : World) :
  handleContactSubmit config gw snap contactData w =
    let failed call :=
      (Normal tt,
       mkWorld (with_isGeneratingEstimate false (flow w)) (timers w) (nextTimer w)
         (log w ++ call ++ [EvToast contactFailedToast])) in
    if truthy_opt (contractorId config) then
      if truthy_opt (currentLeadId snap) then
        let id := default "" (currentLeadId snap) in
        let r := update_reply gw (count is_update (log w)) in
        let updated := log w ++ [EvUpdate id (contactUpdate contactData) r] in
        if update_failed r then
          failed [EvUpdate id (contactUpdate contactData) r]
        else if isGeneratingEstimate snap then
          (Normal tt, mkWorld (flow w) (timers w) (nextTimer w) updated)
        else
          startEstimateGeneration config gw snap id
            (mkWorld (flow w) (timers w) (nextTimer w) updated)
      else
        let r := insert_reply gw (count is_insert (log w)) in
        let inserted := log w ++ [EvInsert (contactLeadData config snap contactData) r] in
        if insert_failed r then
          failed [EvInsert (contactLeadData config snap contactData) r]
        else
          startEstimateGeneration config gw snap (insert_id r)
            (mkWorld (with_currentLeadId (Some (insert_id r)) (flow w))
               (timers w) (nextTimer w) inserted)
    else failed [].
Proof.
  unfold handleContactSubmit.
  destruct (truthy_opt (contractorId config)); simpl;
    [|flow_simpl; done].
  destruct (truthy_opt (currentLeadId snap)); simpl.
  - flow_simpl.
    destruct (update_reply gw (count is_update (log w))) as [e|]; simpl;
      [by rewrite <- app_assoc|].
    destruct (isGeneratingEstimate snap); simpl; [done|].
    rewrite startEstimateGeneration_eq. simpl.
    by destruct (invoke_reply gw _).
  - flow_simpl.
    destruct (insert_reply gw (count is_insert (log w))) as [e|id]; simpl;
      [by rewrite <- app_assoc|].
    destruct (truthy_opt id); simpl; [|by rewrite <- app_assoc].
    rewrite startEstimateGeneration_eq. simpl.
    by destruct (invoke_reply gw _).
Qed.

Lemma handleSkip_eq (w : World) :
  handleSkip config gw snap w =
    if truthy_opt (contractorId config) then
      let r := insert_reply gw (count is_insert (log w)) in
      let inserted := log w ++ [EvInsert (skipLeadData config snap) r] in
      if insert_failed r then
        (Normal tt,
         mkWorld (with_isGeneratingEstimate false (flow w)) (timers w) (nextTimer w)
           (inserted ++ [EvToast skipFailedToast]))
      else
        let started :=
          (startEstimateGeneration config gw snap (insert_id r)
             (mkWorld
                (with_currentLeadId (Some (insert_id r))
                   (with_isGeneratingEstimate true (flow w)))
                (timers w) (nextTimer w) inserted)).2 in
        (Normal tt,
         mkWorld (with_stage stage_estimate (flow started)) (timers started)
           (nextTimer started) (log started))
    else (Normal tt, w).
Proof.
  unfold handleSkip.
  destruct (truthy_opt (contractorId config)); simpl; [|done].
  flow_simpl.
  destruct (insert_reply gw (count is_insert (log w))) as [e|id]; simpl; [done|].
  destruct (truthy_opt id); simpl; [|done].
  rewrite startEstimateGeneration_eq. simpl.
  by destruct (invoke_reply gw _).
Qed.
End HandlerEquations.

(** C5. With a contractor id configured, a failed lead insert or update
    surfaces a notification; in the questions-complete path the stage
    ends as [questions]; in the contact path (failed update of the held
    lead, or failed insert when none is held) and in the skip path the
    stage is left as it was and [isGeneratingEstimate] ends false. *)
Theorem submission_failure_handling (config : EstimateConfig) (gw : Gateway)
    (snap : FlowState) (w : World) :
  truthy_opt (contractorId config) = true →
  let ins := insert_reply gw (count is_insert (log w)) in
  let upd := update_reply gw (count is_update (log w)) in
  (∀ answers,
     insert_failed ins = true →
     let w' := (handleQuestionComplete config gw snap answers w).2 in
     stage (flow w') = stage_questions
     ∧ log w'
       = log w ++ [EvInsert (questionsLeadData config snap answers) ins;
                   EvToast startFailedToast])
  ∧ (∀ contactData,
       (if truthy_opt (currentLeadId snap) then update_failed upd
        else insert_failed ins) = true →
       let w' := (handleContactSubmit config gw snap contactData w).2 in
       stage (flow w') = stage (flow w)
       ∧ isGeneratingEstimate (flow w') = false
       ∧ log w'
         = log w ++
           [if truthy_opt (currentLeadId snap)
            then EvUpdate (default "" (currentLeadId snap))
                   (contactUpdate contactData) upd
            else EvInsert (contactLeadData config snap contactData) ins;
            EvToast contactFailedToast])
  ∧ (insert_failed ins = true →
     let w' := (handleSkip config gw snap w).2 in
     stage (flow w') = stage (flow w)
     ∧ isGeneratingEstimate (flow w') = false
     ∧ log w'
       = log w ++ [EvInsert (skipLeadData config snap) ins; EvToast skipFailedToast]).
Proof.
  intros Hc ins upd. split; [|split].
  - intros answers Hf w'. subst w'.
    rewrite handleQuestionComplete_eq, Hc. simpl. fold ins. rewrite Hf. simpl.
    by rewrite <- app_assoc.
  - intros contactData Hf w'. subst w'.
    rewrite handleContactSubmit_eq, Hc. simpl. fold ins upd.
    destruct (truthy_opt (currentLeadId snap)); rewrite Hf; done.
  - intros Hf w'. subst w'.
    rewrite handleSkip_eq, Hc. simpl. fold ins. rewrite Hf. simpl.
    by rewrite <- app_assoc.
Qed.

Lemma submission_failure_handling_witness :
  stage (flow (handleQuestionComplete sample_config first_insert_rejected
                 initialFlow sample_answers initialWorld).2) = stage_questions
  ∧ isGeneratingEstimate
      (flow (handleSkip sample_config first_insert_rejected initialFlow
               initialWorld).2) = false.
Proof.
  destruct (submission_failure_handling sample_config first_insert_rejected
              initialFlow initialWorld eq_refl) as (Hq & _ & Hs).
  destruct (Hq sample_answers eq_refl) as [Hstage _].
  destruct (Hs eq_refl) as (_ & Hflag & _).
  split; [exact Hstage|exact Hflag].
Defined.

(** ** The in-flight flag *)

(** C1 (as amended). [isGeneratingEstimate] is true immediately after a
    job-start call: when [startEstimateGeneration] suspends at its [await]
    the flag has been set, whatever the invocation will return, and it is
    still true once the job has been invoked successfully.  It is false
    after a failed invocation, after a tick that times out, after a tick
    that finds status [error], after a tick that finds status [complete]
    with estimate data, after a tick whose query fails, and after a failed
    insert or update in the contact and skip paths.  A failed insert in the
    questions-complete path leaves the flag as it was before the call. *)
Theorem isGeneratingEstimate_lifecycle (config : EstimateConfig) (gw : Gateway)
    (snap : FlowState) (w : World) :
  let inv := invoke_reply gw (count is_invoke (log w)) in
  let ins := insert_reply gw (count is_insert (log w)) in
  let upd := update_reply gw (count is_update (log w)) in
  let reply := query_reply gw (count is_query (log w)) in
  let flag w' := isGeneratingEstimate (flow w') in
  (∀ leadId, flag (startEstimateGeneration_issue config gw snap leadId w).2 = true)
  ∧ (∀ leadId,
       inv = InvokeOk →
       flag (startEstimateGeneration config gw snap leadId w).2 = true)
  ∧ (∀ leadId error,
       inv = InvokeError error →
       flag (startEstimateGeneration config gw snap leadId w).2 = false)
  ∧ (∀ h t,
       timers w !! h = Some t →
       (ESTIMATE_TIMEOUT ≤ timeElapsed t + POLL_INTERVAL)%Z
       ∨ (∃ lead, reply = QueryRow lead ∧ terminal_status lead = true)
       ∨ (∃ error, reply = QueryError error) →
       flag (pollTick gw h w).2 = false)
  ∧ (truthy_opt (contractorId config) = true →
     ∀ contactData,
       (if truthy_opt (currentLeadId snap) then update_failed upd
        else insert_failed ins) = true →
       flag (handleContactSubmit config gw snap contactData w).2 = false)
  ∧ (truthy_opt (contractorId config) = true →
     insert_failed ins = true →
     flag (handleSkip config gw snap w).2 = false)
  ∧ (∀ answers,
       truthy_opt (contractorId config) = true →
       insert_failed ins = true →
       flag (handleQuestionComplete config gw snap answers w).2 = flag w).
Proof.
  intros inv ins upd reply flag. subst flag. simpl.
  split; [|split; [|split; [|split; [|split; [|split]]]]].
  - done.
  - intros leadId Hi. rewrite startEstimateGeneration_eq. simpl. fold inv.
    by rewrite Hi.
  - intros leadId error Hi. rewrite startEstimateGeneration_eq. simpl. fold inv.
    by rewrite Hi.
  - intros h t Ht Hcase. rewrite (pollTick_active gw h t w Ht). simpl. fold reply.
    case_bool_decide as Hto; simpl; [done|].
    destruct Hcase as [Hle|[(lead & Hr & Hterm)|(error & Hr)]]; [lia| |].
    + rewrite Hr. unfold terminal_status in Hterm.
      destruct (bool_decide (LeadRow.status lead = Some "error")); simpl in *;
        [done|].
      by rewrite Hterm.
    + by rewrite Hr.
  - intros Hc contactData Hf.
    rewrite handleContactSubmit_eq, Hc. simpl. fold ins upd.
    destruct (truthy_opt (currentLeadId snap)); by rewrite Hf.
  - intros Hc Hf. rewrite handleSkip_eq, Hc. simpl. fold ins. by rewrite Hf.
  - intros answers Hc Hf.
    rewrite handleQuestionComplete_eq, Hc. simpl. fold ins. by rewrite Hf.
Qed.

Lemma isGeneratingEstimate_lifecycle_witness :
  isGeneratingEstimate
    (flow (startEstimateGeneration_issue sample_config job_unavailable initialFlow
             "lead-1" initialWorld).2) = true
  ∧ isGeneratingEstimate
      (flow (startEstimateGeneration sample_config always_pending initialFlow
               "lead-1" initialWorld).2) = true
  ∧ isGeneratingEstimate (flow (pollTick queries_rejected 0 polling_world).2) = false
  ∧ isGeneratingEstimate
      (flow (handleSkip sample_config first_insert_rejected initialFlow
               initialWorld).2) = false.
Proof.
  split; [|split; [|split]].
  - destruct (isGeneratingEstimate_lifecycle sample_config job_unavailable
                initialFlow initialWorld) as (Hissue & _).
    exact (Hissue "lead-1").
  - destruct (isGeneratingEstimate_lifecycle sample_config always_pending
                initialFlow initialWorld) as (_ & Hstart & _).
    exact (Hstart "lead-1" eq_refl).
  - destruct (isGeneratingEstimate_lifecycle sample_config queries_rejected
                initialFlow polling_world) as (_ & _ & _ & Htick & _).
    apply (Htick 0 (mkPollTimer "lead-1" 0) eq_refl).
    right. right. eexists. reflexivity.
  - destruct (isGeneratingEstimate_lifecycle sample_config first_insert_rejected
                initialFlow initialWorld) as (_ & _ & _ & _ & _ & Hskip & _).
    exact (Hskip eq_refl eq_refl).
Defined.

(** C1, counterexample.  The questions are completed twice; the first
    lead is created and its job started, the second insert fails.  After
    that submission failure [isGeneratingEstimate] is still true. *)
Lemma questions_submission_failure_keeps_flag :
  let w1 :=
    step sample_config later_inserts_rejected (CompleteQuestions sample_answers)
      initialWorld in
  let w2 :=
    step sample_config later_inserts_rejected (CompleteQuestions sample_answers) w1 in
  insert_failed (insert_reply later_inserts_rejected (count is_insert (log w1))) = true
  ∧ last (log w2) = Some (EvToast startFailedToast)
  ∧ isGeneratingEstimate (flow w2) = true
  ∧ isGeneratingEstimate (flow w2) ≠ false.
Proof. vm_compute. repeat split; discriminate. Qed.

(** ** Missing contractor id *)

Section MissingContractor.
Variable config : EstimateConfig.
Variable gw : Gateway.
Hypothesis absent : truthy_opt (contractorId config) = false.

(** The questions-complete path notifies and changes nothing else. *)
Lemma handleQuestionComplete_missing_contractor (snap : FlowState)
    (answers : AnswersState) (w : World) :
  handleQuestionComplete config gw snap answers w
  = (Normal tt,
     mkWorld (flow w) (timers w) (nextTimer w)
       (log w ++ [EvToast contractorRequiredToast])).
Proof. by rewrite handleQuestionComplete_eq, absent. Qed.

(** The contact path notifies through its [catch], which also clears
    [isGeneratingEstimate]. *)
Lemma handleContactSubmit_missing_contractor (snap : FlowState)
    (contactData : ContactData) (w : World) :
  handleContactSubmit config gw snap contactData w
  = (Normal tt,
     mkWorld (with_isGeneratingEstimate false (flow w)) (timers w) (nextTimer w)
       (log w ++ [EvToast contactFailedToast])).
Proof. by rewrite handleContactSubmit_eq, absent. Qed.

Lemma handleSkip_missing_contractor (snap : FlowState) (w : World) :
  handleSkip config gw snap w = (Normal tt, w).
Proof. by rewrite handleSkip_eq, absent. Qed.

(** Without a contractor id no job is ever started: in every session the
    flag stays false, no interval runs, and no lead call is made; so the
    [catch] of the contact path changes no state either. *)
Lemma missing_contractor_session (ts : list Trigger) :
  let w := run config gw ts initialWorld in
  isGeneratingEstimate (flow w) = false
  ∧ timers w = ∅
  ∧ count is_insert (log w) = 0
  ∧ count is_update (log w) = 0
  ∧ count is_invoke (log w) = 0
  ∧ count is_query (log w) = 0.
Proof.
  induction ts as [|t ts IH] using rev_ind; [done|].
  rewrite run_snoc. simpl in *.
  set (w := run config gw ts initialWorld) in *.
  destruct IH as (Hflag & Htimers & Hins & Hupd & Hinv & Hq).
  unfold step. destruct t as [urls|d|c|a|c| |h]; simpl.
  - unfold handlePhotoUpload. flow_simpl. by case_bool_decide.
  - unfold handleDescriptionSubmit. flow_simpl.
    destruct (matcher_reply gw _) as [e|sets]; simpl.
    + rewrite !count_snoc. simpl. by rewrite !Nat.add_0_r.
    + case_bool_decide; simpl;
        [|destruct (truthy_opt (CategoryQuestions.category <$> sets !! 0)); simpl];
        rewrite !count_snoc; simpl; by rewrite !Nat.add_0_r.
  - done.
  - rewrite handleQuestionComplete_missing_contractor. simpl.
    rewrite !count_snoc. simpl. by rewrite !Nat.add_0_r.
  - rewrite handleContactSubmit_missing_contractor. simpl.
    rewrite !count_snoc. simpl. by rewrite !Nat.add_0_r.
  - by rewrite handleSkip_missing_contractor.
  - rewrite pollTick_inactive; [done|]. by rewrite Htimers.
Qed.
End MissingContractor.

(** C4. With [config.contractorId] absent, [handleSkip] returns at once:
    it makes no call, changes no state, and surfaces no notification; the
    world, log of notifications included, is exactly as before. *)
Theorem handleSkip_missing_contractor_silent (config : EstimateConfig)
    (gw : Gateway) (snap : FlowState) (w : World) :
  truthy_opt (contractorId config) = false →
  handleSkip config gw snap w = (Normal tt, w)
  ∧ count is_toast (log (handleSkip config gw snap w).2) = count is_toast (log w).
Proof.
  intros absent. by rewrite handleSkip_eq, absent.
Qed.

Lemma handleSkip_missing_contractor_silent_witness :
  handleSkip (mkConfig None) always_pending initialFlow initialWorld
  = (Normal tt, initialWorld).
Proof.
  exact (proj1 (handleSkip_missing_contractor_silent (mkConfig None) always_pending
                  initialFlow initialWorld eq_refl)).
Defined.

(** ** Description submission *)

(** C7 (as amended). When consolidation yields no question set the stage
    becomes [category] (not [questions]) and neither the selected category
    nor the matched sets change; when it yields at least one set the sets
    are stored, the stage becomes [questions], and the selected category
    becomes the first set's category if that category is a non-empty
    string and is left unchanged otherwise. *)
Theorem handleDescriptionSubmit_routes (gw : Gateway) (snap : FlowState)
    (description : string) (w : World) (consolidatedSets : list CategoryQuestions.t) :
  matcher_reply gw (count is_match (log w)) = MatchSets consolidatedSets →
  let w' := (handleDescriptionSubmit gw snap description w).2 in
  projectDescription (flow w') = description
  ∧ match consolidatedSets with
    | [] =>
        stage (flow w') = stage_category
        ∧ stage (flow w') ≠ stage_questions
        ∧ selectedCategory (flow w') = selectedCategory (flow w)
        ∧ matchedQuestionSets (flow w') = matchedQuestionSets (flow w)
    | first :: _ =>
        stage (flow w') = stage_questions
        ∧ matchedQuestionSets (flow w') = consolidatedSets
        ∧ selectedCategory (flow w')
          = (if truthy_string (CategoryQuestions.category first)
             then Some (CategoryQuestions.category first)
             else selectedCategory (flow w))
    end.
Proof.
  intros Hr. unfold handleDescriptionSubmit. flow_simpl. rewrite Hr.
  destruct consolidatedSets as [|first rest]; simpl; [done|].
  by destruct (truthy_string (CategoryQuestions.category first)).
Qed.

Lemma handleDescriptionSubmit_routes_witness :
  let w' :=
    (handleDescriptionSubmit matcher_finds_roofing initialFlow "leaky roof"
       initialWorld).2 in
  stage (flow w') = stage_questions
  ∧ selectedCategory (flow w') = Some "roofing".
Proof.
  destruct (handleDescriptionSubmit_routes matcher_finds_roofing initialFlow
              "leaky roof" initialWorld [roofing_set] eq_refl)
    as (_ & Hstage & _ & Hcat).
  split; [exact Hstage|exact Hcat].
Defined.

(** C7, counterexample.  Photos are uploaded, which puts the wizard in
    stage [description], and a description is submitted for which
    consolidation yields one set, whose category is the empty string: the
    stage becomes [questions] and the set is stored, but the selected
    category is not set from the first set.  It stays [null] on the plain
    path, and stays the earlier choice when a category had been chosen
    before the photos were uploaded. *)
Lemma handleDescriptionSubmit_keeps_selection :
  let plain :=
    run sample_config matcher_finds_unnamed [SubmitPhotos ["photo-1.jpg"]]
      initialWorld in
  let plain' :=
    step sample_config matcher_finds_unnamed (SubmitDescription "fix the sink")
      plain in
  let chosen :=
    run sample_config matcher_finds_unnamed
      [SelectCategory "roofing"; SubmitPhotos ["photo-1.jpg"]] initialWorld in
  let chosen' :=
    step sample_config matcher_finds_unnamed (SubmitDescription "fix the sink")
      chosen in
  matcher_reply matcher_finds_unnamed 0 = MatchSets [unnamed_set]
  ∧ stage (flow plain) = stage_description
  ∧ stage (flow plain') = stage_questions
  ∧ matchedQuestionSets (flow plain') = [unnamed_set]
  ∧ selectedCategory (flow plain') = None
  ∧ selectedCategory (flow plain') ≠ Some (CategoryQuestions.category unnamed_set)
  ∧ stage (flow chosen) = stage_description
  ∧ stage (flow chosen') = stage_questions
  ∧ matchedQuestionSets (flow chosen') = [unnamed_set]
  ∧ selectedCategory (flow chosen') = Some "roofing"
  ∧ selectedCategory (flow chosen') ≠ Some (CategoryQuestions.category unnamed_set).
Proof. vm_compute. repeat split; discriminate. Qed.

(** ** Lead creation *)

Section LeadCreation.
Variable config : EstimateConfig.
Variable gw : Gateway.





End LeadCreation.




(** * Further properties of the handlers *)

(** ** Errors that escape *)

(** X1. Whatever the gateways reply, every handler and every firing of the
    timer completes normally: the only error that leaves the hook is the
    one thrown by the matcher, through [handleDescriptionSubmit], which has
    no [catch]. *)
Theorem only_matcher_errors_escape (config : EstimateConfig) (gw : Gateway)
    (snap : FlowState) (t : Trigger) (w : World) :
  (handler config gw snap t w).1 = Normal tt
  ∨ ∃ description error,
      t = SubmitDescription description
      ∧ matcher_reply gw (count is_match (log w)) = MatchThrows error
      ∧ (handler config gw snap t w).1 = Throw error.
Proof.
  destruct t as [urls|d|c|a|c| |h]; simpl.
  - left. unfold handlePhotoUpload. flow_simpl. by case_bool_decide.
  - unfold handleDescriptionSubmit. flow_simpl.
    destruct (matcher_reply gw _) as [e|sets] eqn:Hr; simpl; [right; by eauto|].
    left. case_bool_decide; simpl; [done|].
    by destruct (truthy_opt (CategoryQuestions.category <$> sets !! 0)).
  - by left.
  - left. rewrite handleQuestionComplete_eq. simpl.
    destruct (truthy_opt (contractorId config)); [|done].
    destruct (insert_failed _); [done|].
    rewrite startEstimateGeneration_eq. simpl. by destruct (invoke_reply gw _).
  - left. rewrite handleContactSubmit_eq. simpl.
    destruct (truthy_opt (contractorId config)); [|done].
    destruct (truthy_opt (currentLeadId snap)).
    + destruct (update_failed _); [done|].
      destruct (isGeneratingEstimate snap); [done|].
      rewrite startEstimateGeneration_eq. simpl. by destruct (invoke_reply gw _).
    + destruct (insert_failed _); [done|].
      rewrite startEstimateGeneration_eq. simpl. by destruct (invoke_reply gw _).
  - left. rewrite handleSkip_eq. simpl.
    destruct (truthy_opt (contractorId config)); [|done].
    by destruct (insert_failed _).
  - left. destruct (timers w !! h) as [t|] eqn:Ht.
    + rewrite (pollTick_active gw h t w Ht). simpl.
      case_bool_decide; [done|].
      destruct (query_reply gw _) as [e| |lead]; simpl; try done.
      case_bool_decide; [done|].
      by destruct (bool_decide _ && truthy_json _).
    + by rewrite pollTick_inactive.
Qed.

(** X2. When the matcher throws, [handleDescriptionSubmit] rejects with
    the matcher's error after having stored the description: the stage,
    the selected category and the matched sets stay as they were and no
    notification is surfaced. *)
Theorem handleDescriptionSubmit_matcher_throws (gw : Gateway) (snap : FlowState)
    (description : string) (w : World) (error : JsError) :
  matcher_reply gw (count is_match (log w)) = MatchThrows error →
  handleDescriptionSubmit gw snap description w
  = (Throw error,
     mkWorld (with_projectDescription description (flow w)) (timers w) (nextTimer w)
       (log w ++ [EvMatch description (categoriesForMatching snap) (MatchThrows error)])).
Proof.
  intros Hr. unfold handleDescriptionSubmit. flow_simpl. by rewrite Hr.
Qed.

Lemma handleDescriptionSubmit_matcher_throws_witness :
  let r := handleDescriptionSubmit matcher_unavailable initialFlow "leaky roof"
             initialWorld in
  r.1 = Throw (mkJsError true "matcher unavailable")
  ∧ stage (flow r.2) = stage_photo
  ∧ projectDescription (flow r.2) = "leaky roof".
Proof.
  rewrite (handleDescriptionSubmit_matcher_throws matcher_unavailable initialFlow
             "leaky roof" initialWorld (mkJsError true "matcher unavailable") eq_refl).
  repeat split.
Defined.

(** ** What the created lead carries *)

(** X3. On the category path (no matched question set is stored), the
    lead created on completing the questions takes nothing from the
    category the user selected: its [category] is absent and its title is
    "New Project", while the job invoked for it is given the selected
    category. *)
Theorem category_path_lead_has_no_category (config : EstimateConfig) (gw : Gateway)
    (categoryId : string) (answers : AnswersState) (w : World) :
  matchedQuestionSets (flow w) = [] →
  truthy_opt (contractorId config) = true →
  insert_failed (insert_reply gw (count is_insert (log w))) = false →
  let w' := run config gw [SelectCategory categoryId; CompleteQuestions answers] w in
  ∃ leadData body,
    log w'
    = log w ++ [EvInsert leadData (insert_reply gw (count is_insert (log w)));
                EvInvoke body (invoke_reply gw (count is_invoke (log w)))]
        ++ (if invoke_reply gw (count is_invoke (log w)) is InvokeOk then []
            else [EvToast startFailedToast])
    ∧ LeadInsert.category leadData = None
    ∧ LeadInsert.project_title leadData = "New Project"
    ∧ InvokeBody.category body = Some categoryId
    ∧ InvokeBody.leadId body = insert_id (insert_reply gw (count is_insert (log w))).
Proof.
  intros Hsets Hcfg Hok w'. subst w'. unfold run, step. simpl.
  rewrite handleQuestionComplete_eq, Hcfg. simpl. rewrite Hok.
  rewrite startEstimateGeneration_eq. simpl.
  rewrite count_snoc. simpl. rewrite Nat.add_0_r.
  eexists (questionsLeadData config _ answers), (invokeBody config _ _).
  split.
  - destruct (invoke_reply gw (count is_invoke (log w))); simpl;
      by rewrite <- ?app_assoc.
  - unfold questionsLeadData, currentCategory. simpl. by rewrite Hsets.
Qed.

Lemma category_path_lead_has_no_category_witness :
  let w' :=
    run sample_config always_pending
      [SelectCategory "roofing"; CompleteQuestions sample_answers] initialWorld in
  ∃ leadData body r1 r2,
    log w' = [EvInsert leadData r1; EvInvoke body r2]
    ∧ LeadInsert.category leadData = None
    ∧ InvokeBody.category body = Some "roofing".
Proof.
  destruct (category_path_lead_has_no_category sample_config always_pending
              "roofing" sample_answers initialWorld eq_refl eq_refl eq_refl)
    as (leadData & body & Hlog & Hcat & _ & Hbody & _).
  exists leadData, body. do 2 eexists. split; [exact Hlog|]. split; [exact Hcat|exact Hbody].
Defined.

(** ** Successful submissions *)

(** X4. When the skip path obtains a lead id, it ends in stage [estimate]
    holding that id, whether or not the job could be invoked: a failed
    invocation only adds the start-failure notification and leaves
    [isGeneratingEstimate] false with no interval running.  The inserted
    lead is flagged as a test estimate and carries the selected category. *)
Theorem skip_success_reaches_estimate (config : EstimateConfig) (gw : Gateway)
    (snap : FlowState) (w : World) :
  truthy_opt (contractorId config) = true →
  insert_failed (insert_reply gw (count is_insert (log w))) = false →
  let ins := insert_reply gw (count is_insert (log w)) in
  let inv := invoke_reply gw (count is_invoke (log w)) in
  let w' := (handleSkip config gw snap w).2 in
  stage (flow w') = stage_estimate
  ∧ currentLeadId (flow w') = Some (insert_id ins)
  ∧ isGeneratingEstimate (flow w') = (if inv is InvokeOk then true else false)
  ∧ timers w'
    = (if inv is InvokeOk
       then <[nextTimer w := mkPollTimer (insert_id ins) 0]> (timers w)
       else timers w)
  ∧ log w'
    = log w ++ [EvInsert (skipLeadData config snap) ins;
                EvInvoke (invokeBody config snap (insert_id ins)) inv]
        ++ (if inv is InvokeOk then [] else [EvToast startFailedToast])
  ∧ LeadInsert.is_test_estimate (skipLeadData config snap) = Some true
  ∧ LeadInsert.category (skipLeadData config snap) = selectedCategory snap.
Proof.
  intros Hcfg Hok ins inv w'. subst w' ins inv.
  rewrite handleSkip_eq, Hcfg. simpl. rewrite Hok.
  rewrite startEstimateGeneration_eq. simpl.
  rewrite count_snoc. simpl. rewrite Nat.add_0_r.
  destruct (invoke_reply gw (count is_invoke (log w))); simpl;
    rewrite <- ?app_assoc; done.
Qed.

Lemma skip_success_reaches_estimate_witness :
  let w' := (handleSkip sample_config job_unavailable initialFlow initialWorld).2 in
  stage (flow w') = stage_estimate
  ∧ isGeneratingEstimate (flow w') = false.
Proof.
  destruct (skip_success_reaches_estimate sample_config job_unavailable initialFlow
              initialWorld eq_refl eq_refl) as (Hstage & _ & Hflag & _).
  split; [exact Hstage|exact Hflag].
Defined.

(** X5. When completing the questions obtains a lead id, the answers are
    stored, the id is held and the stage ends as [contact], whether or not
    the job could be invoked: the [catch] that returns to [questions] is
    not reached by an invocation failure, which only clears
    [isGeneratingEstimate] and notifies. *)
Theorem questions_success_reaches_contact (config : EstimateConfig) (gw : Gateway)
    (snap : FlowState) (given : AnswersState) (w : World) :
  truthy_opt (contractorId config) = true →
  insert_failed (insert_reply gw (count is_insert (log w))) = false →
  let ins := insert_reply gw (count is_insert (log w)) in
  let inv := invoke_reply gw (count is_invoke (log w)) in
  let w' := (handleQuestionComplete config gw snap given w).2 in
  stage (flow w') = stage_contact
  ∧ answers (flow w') = given
  ∧ currentLeadId (flow w') = Some (insert_id ins)
  ∧ isGeneratingEstimate (flow w') = (if inv is InvokeOk then true else false)
  ∧ timers w'
    = (if inv is InvokeOk
       then <[nextTimer w := mkPollTimer (insert_id ins) 0]> (timers w)
       else timers w)
  ∧ log w'
    = log w ++ [EvInsert (questionsLeadData config snap given) ins;
                EvInvoke (invokeBody config snap (insert_id ins)) inv]
        ++ (if inv is InvokeOk then [] else [EvToast startFailedToast]).
Proof.
  intros Hcfg Hok ins inv w'. subst w' ins inv.
  rewrite handleQuestionComplete_eq, Hcfg. simpl. rewrite Hok.
  rewrite startEstimateGeneration_eq. simpl.
  rewrite count_snoc. simpl. rewrite Nat.add_0_r.
  destruct (invoke_reply gw (count is_invoke (log w))); simpl;
    rewrite <- ?app_assoc; done.
Qed.

Lemma questions_success_reaches_contact_witness :
  let w' :=
    (handleQuestionComplete sample_config job_unavailable initialFlow
       sample_answers initialWorld).2 in
  stage (flow w') = stage_contact
  ∧ currentLeadId (flow w') = Some "lead-1"
  ∧ isGeneratingEstimate (flow w') = false.
Proof.
  destruct (questions_success_reaches_contact sample_config job_unavailable
              initialFlow sample_answers initialWorld eq_refl eq_refl)
    as (Hstage & _ & Hid & Hflag & _).
  split; [exact Hstage|]. split; [exact Hid|exact Hflag].
Defined.

(** X6. A contact submission for a held lead whose update succeeds starts
    a job only if none was in flight when the form was rendered: with
    [isGeneratingEstimate] true it makes the update and nothing else (no
    invocation, no new interval, no state change); with it false it
    invokes the job for the held id. *)
Theorem contact_does_not_restart_job (config : EstimateConfig) (gw : Gateway)
    (contactData : ContactData) (w : World) :
  truthy_opt (contractorId config) = true →
  truthy_opt (currentLeadId (flow w)) = true →
  update_reply gw (count is_update (log w)) = UpdateOk →
  let id := default "" (currentLeadId (flow w)) in
  let updated := log w ++ [EvUpdate id (contactUpdate contactData) UpdateOk] in
  let w' := step config gw (SubmitContact contactData) w in
  if isGeneratingEstimate (flow w) then
    w' = mkWorld (flow w) (timers w) (nextTimer w) updated
  else
    ∃ rest,
      log w'
      = updated ++ EvInvoke (invokeBody config (flow w) id)
                     (invoke_reply gw (count is_invoke (log w))) :: rest
      ∧ count is_invoke rest = 0.
Proof.
  intros Hcfg Hheld Hupd id updated w'. subst w'. unfold step. simpl.
  rewrite handleContactSubmit_eq, Hcfg, Hheld. simpl. rewrite Hupd. simpl.
  destruct (isGeneratingEstimate (flow w)); [done|].
  rewrite startEstimateGeneration_eq. simpl.
  rewrite count_snoc. simpl. rewrite Nat.add_0_r.
  destruct (invoke_reply gw (count is_invoke (log w))); simpl.
  - exists [EvToast startFailedToast]. by rewrite <- app_assoc.
  - by exists [].
Qed.

Lemma contact_does_not_restart_job_witness :
  let w1 :=
    step sample_config always_pending (CompleteQuestions sample_answers)
      initialWorld in
  let w2 := step sample_config always_pending (SubmitContact sample_contact) w1 in
  count is_invoke (log w2) = 1 ∧ timers w2 = timers w1.
Proof.
  pose proof (contact_does_not_restart_job sample_config always_pending
                sample_contact
                (step sample_config always_pending (CompleteQuestions sample_answers)
                   initialWorld) eq_refl eq_refl eq_refl) as H.
  simpl in H. cbv zeta. rewrite H. split; reflexivity.
Defined.

(** ** Which trigger writes which state *)

Ltac writers :=
  repeat split; try done; intros;
  repeat match goal with H : _ ∨ _ |- _ => destruct H end;
  try done; eauto.

(** X7. Each piece of the hook state has its writers: the photos are
    written only by a photo upload, the description and the matched sets
    only by a description submission, the selected category only by a
    description submission or a category choice, the answers only by
    completing the questions, the estimate only by a timer firing, and the
    held lead id only by the three submitting triggers; a contact
    submission never changes the stage; and [progress],
    [completedCategories], [categories] and [isLoading] are written by no
    trigger. *)
Theorem state_writers (config : EstimateConfig) (gw : Gateway) (t : Trigger)
    (w : World) :
  let w' := step config gw t w in
  progress (flow w') = progress (flow w)
  ∧ completedCategories (flow w') = completedCategories (flow w)
  ∧ categories (flow w') = categories (flow w)
  ∧ isLoading (flow w') = isLoading (flow w)
  ∧ (uploadedPhotos (flow w') ≠ uploadedPhotos (flow w)
     ∨ uploadedImageUrl (flow w') ≠ uploadedImageUrl (flow w) →
     ∃ urls, t = SubmitPhotos urls)
  ∧ (projectDescription (flow w') ≠ projectDescription (flow w)
     ∨ matchedQuestionSets (flow w') ≠ matchedQuestionSets (flow w) →
     ∃ description, t = SubmitDescription description)
  ∧ (selectedCategory (flow w') ≠ selectedCategory (flow w) →
     (∃ description, t = SubmitDescription description)
     ∨ ∃ categoryId, t = SelectCategory categoryId)
  ∧ (answers (flow w') ≠ answers (flow w) → ∃ a, t = CompleteQuestions a)
  ∧ (estimate (flow w') ≠ estimate (flow w) → ∃ h, t = Tick h)
  ∧ (currentLeadId (flow w') ≠ currentLeadId (flow w) →
     t = Skip ∨ (∃ a, t = CompleteQuestions a) ∨ ∃ c, t = SubmitContact c)
  ∧ (stage (flow w') ≠ stage (flow w) → ∀ c, t ≠ SubmitContact c).
Proof.
  unfold step. destruct t as [urls|d|c|a|c| |h]; simpl.
  - unfold handlePhotoUpload. flow_simpl. case_bool_decide; simpl;
      writers.
  - unfold handleDescriptionSubmit. flow_simpl.
    destruct (matcher_reply gw _) as [e|sets]; simpl; [writers|].
    case_bool_decide; simpl; [writers|].
    destruct (truthy_opt (CategoryQuestions.category <$> sets !! 0)); simpl;
      writers.
  - writers.
  - rewrite handleQuestionComplete_eq. simpl.
    destruct (truthy_opt (contractorId config)); simpl; [|writers].
    destruct (insert_failed _); simpl; [writers|].
    rewrite startEstimateGeneration_eq. simpl.
    destruct (invoke_reply gw _); simpl; writers.
  - rewrite handleContactSubmit_eq. simpl.
    destruct (truthy_opt (contractorId config)); simpl; [|writers].
    destruct (truthy_opt (currentLeadId (flow w))); simpl.
    + destruct (update_failed _); simpl; [writers|].
      destruct (isGeneratingEstimate (flow w)); simpl; [writers|].
      rewrite startEstimateGeneration_eq. simpl.
      destruct (invoke_reply gw _); simpl; writers.
    + destruct (insert_failed _); simpl; [writers|].
      rewrite startEstimateGeneration_eq. simpl.
      destruct (invoke_reply gw _); simpl; writers.
  - rewrite handleSkip_eq. simpl.
    destruct (truthy_opt (contractorId config)); simpl; [|writers].
    destruct (insert_failed _); simpl; [writers|].
    rewrite startEstimateGeneration_eq. simpl.
    destruct (invoke_reply gw _); simpl; writers.
  - destruct (timers w !! h) as [t|] eqn:Ht.
    + rewrite (pollTick_active gw h t w Ht). simpl.
      case_bool_decide; simpl; [writers|].
      destruct (query_reply gw _) as [e| |lead]; simpl; [writers|writers|].
      case_bool_decide; simpl; [writers|].
      destruct (bool_decide _ && truthy_json _); simpl; writers.
    + rewrite pollTick_inactive by done. writers.
Qed.

Lemma state_writers_witness :
  (∃ description, SelectCategory "roofing" = SubmitDescription description)
  ∨ ∃ categoryId, SelectCategory "roofing" = SelectCategory categoryId.
Proof.
  destruct (state_writers sample_config always_pending (SelectCategory "roofing")
              initialWorld) as (_ & _ & _ & _ & _ & _ & Hcat & _).
  apply Hcat. simpl. discriminate.
Defined.

(** ** More on the poller *)

(** A firing of one interval leaves every other interval as it was. *)
Lemma tick_frame (gw : Gateway) (h : nat) (w : World) (h' : nat) :
  h ≠ h' → timers (pollTick gw h w).2 !! h' = timers w !! h'.
Proof.
  intros Hne. destruct (timers w !! h) as [t|] eqn:Ht;
    [|by rewrite pollTick_inactive].
  rewrite (pollTick_active gw h t w Ht). simpl.
  case_bool_decide; simpl; [by rewrite lookup_delete_ne|].
  destruct (query_reply gw _) as [e| |lead]; simpl;
    [by rewrite lookup_delete_ne|by rewrite lookup_insert_ne|].
  case_bool_decide; simpl; [by rewrite lookup_delete_ne|].
  destruct (bool_decide _ && truthy_json _); simpl;
    [by rewrite lookup_delete_ne|by rewrite lookup_insert_ne].
Qed.

(** X8. A firing of a timer makes no insert, update, job invocation or
    matcher call; it makes at most one status query, for the lead of that
    timer, and surfaces at most one notification; it creates no interval
    and leaves every other interval exactly as it was. *)
Theorem tick_only_queries (gw : Gateway) (h : nat) (w : World) :
  let w' := (pollTick gw h w).2 in
  count is_insert (log w') = count is_insert (log w)
  ∧ count is_update (log w') = count is_update (log w)
  ∧ count is_invoke (log w') = count is_invoke (log w)
  ∧ count is_match (log w') = count is_match (log w)
  ∧ count is_query (log w') ≤ count is_query (log w) + 1
  ∧ count is_toast (log w') ≤ count is_toast (log w) + 1
  ∧ (∀ id r, EvQuery id r ∈ log w' →
       EvQuery id r ∈ log w ∨ ∃ t, timers w !! h = Some t ∧ id = timer_leadId t)
  ∧ nextTimer w' = nextTimer w
  ∧ (∀ h', h' ≠ h → timers w' !! h' = timers w !! h').
Proof.
  assert (Hq : ∀ (l : list Event) id r x (rest : list Event) (t : PollTimer),
             (∀ e, e ∈ rest → is_query e = false) →
             EvQuery id r ∈ (l ++ EvQuery (timer_leadId t) x :: rest) →
             EvQuery id r ∈ l ∨ ∃ t', Some t = Some t' ∧ id = timer_leadId t').
  { intros l id r x rest t Hrest Hin.
    apply elem_of_app in Hin as [Hin|Hin]; [by left|].
    apply elem_of_cons in Hin as [Heq|Hin]; [right; exists t; by inversion Heq|].
    by apply Hrest in Hin. }
  destruct (timers w !! h) as [t|] eqn:Ht; simpl.
  - rewrite (pollTick_active gw h t w Ht). simpl.
    assert (Hdel : ∀ h', h' ≠ h → delete h (timers w) !! h' = timers w !! h')
      by (intros; by rewrite lookup_delete_ne).
    assert (Hins : ∀ x h', h' ≠ h → <[h := x]> (timers w) !! h' = timers w !! h')
      by (intros; by rewrite lookup_insert_ne).
    case_bool_decide; simpl.
    { count_norm. repeat split; try lia; try done; try apply Hins; try apply Hdel.
      intros id r Hin. apply elem_of_app in Hin as [Hin|Hin]; [by left|].
      apply list_elem_of_singleton in Hin. done. }
    destruct (query_reply gw _) as [e| |lead]; simpl.
    + rewrite <- app_assoc. count_norm. repeat split; try lia; try done; try apply Hins; try apply Hdel.
      intros id r. apply Hq. intros e' He'.
      apply list_elem_of_singleton in He'. by subst.
    + count_norm. repeat split; try lia; try done; try apply Hins; try apply Hdel.
      intros id r. apply Hq. intros e' He'. by apply elem_of_nil in He'.
    + case_bool_decide; simpl.
      * rewrite <- app_assoc. count_norm. repeat split; try lia; try done; try apply Hins; try apply Hdel.
        intros id r. apply Hq. intros e' He'.
        apply list_elem_of_singleton in He'. by subst.
      * destruct (bool_decide _ && truthy_json _); simpl; count_norm;
          repeat split; try lia; try done; try apply Hins; try apply Hdel;
          intros id r; apply Hq; intros e' He'; by apply elem_of_nil in He'.
  - rewrite pollTick_inactive by done. simpl. repeat split; try lia; try done; try apply Hins; try apply Hdel.
    intros id r Hin. by left.
Qed.

Lemma tick_only_queries_witness :
  timers (pollTick queries_rejected 0 polling_world).2 !! 1
  = timers polling_world !! 1.
Proof.
  destruct (tick_only_queries queries_rejected 0 polling_world)
    as (_ & _ & _ & _ & _ & _ & _ & _ & Hframe).
  apply Hframe. lia.
Defined.

(** X9. A firing of a running timer has one of three outcomes: it keeps
    the interval, having made one query and changed nothing in the hook
    state, with [POLL_INTERVAL] more on the interval's clock; or it clears
    the interval, clears [isGeneratingEstimate], keeps the stage and the
    estimate, and surfaces exactly one notification; or it clears the
    interval on completion, moving to stage [estimate] with no
    notification. *)
Theorem tick_outcomes (gw : Gateway) (h : nat) (t : PollTimer) (w : World) :
  timers w !! h = Some t →
  let w' := (pollTick gw h w).2 in
  (timers w' !! h
   = Some (mkPollTimer (timer_leadId t) (timeElapsed t + POLL_INTERVAL))
   ∧ flow w' = flow w
   ∧ ∃ r, log w' = log w ++ [EvQuery (timer_leadId t) r])
  ∨ (timers w' !! h = None
     ∧ flow w' = with_isGeneratingEstimate false (flow w)
     ∧ count is_toast (log w') = count is_toast (log w) + 1)
  ∨ (timers w' !! h = None
     ∧ stage (flow w') = stage_estimate
     ∧ isGeneratingEstimate (flow w') = false
     ∧ count is_toast (log w') = count is_toast (log w)).
Proof.
  intros Ht w'. subst w'. rewrite (pollTick_active gw h t w Ht). simpl.
  case_bool_decide; simpl.
  { right. left. rewrite lookup_delete_eq. count_norm. repeat split; lia. }
  destruct (query_reply gw _) as [e| |lead]; simpl.
  - right. left. rewrite lookup_delete_eq, <- app_assoc. count_norm.
    repeat split; lia.
  - left. rewrite lookup_insert_eq. repeat split. by eexists.
  - case_bool_decide; simpl.
    + right. left. rewrite lookup_delete_eq, <- app_assoc. count_norm.
      repeat split; lia.
    + destruct (bool_decide _ && truthy_json _); simpl.
      * right. right. rewrite lookup_delete_eq. count_norm. repeat split; lia.
      * left. rewrite lookup_insert_eq. repeat split. by eexists.
Qed.

Lemma tick_outcomes_witness :
  let w' := (pollTick queries_rejected 0 polling_world).2 in
  timers w' !! 0 = None ∧ isGeneratingEstimate (flow w') = false.
Proof.
  destruct (tick_outcomes queries_rejected 0 (mkPollTimer "lead-1" 0) polling_world
              eq_refl) as [(Hk & _)|[(Hc & Hf & _)|(Hc & _ & Hf & _)]].
  - discriminate Hk.
  - split; [exact Hc|]. rewrite Hf. reflexivity.
  - split; [exact Hc|exact Hf].
Defined.

(** X11. A tick in time that finds status [error] stops the interval and
    notifies with the lead's [error_message] when that is a non-empty
    string and with "Failed to generate estimate" otherwise; the stage and
    the stored estimate are untouched, even when the row also carries
    estimate data. *)
Theorem poll_error_status (gw : Gateway) (h : nat) (t : PollTimer) (w : World)
    (lead : LeadRow.t) :
  timers w !! h = Some t →
  (timeElapsed t + POLL_INTERVAL < ESTIMATE_TIMEOUT)%Z →
  query_reply gw (count is_query (log w)) = QueryRow lead →
  LeadRow.status lead = Some "error" →
  pollTick gw h w
  = (Normal tt,
     mkWorld (with_isGeneratingEstimate false (flow w)) (delete h (timers w))
       (nextTimer w)
       (log w ++
        [EvQuery (timer_leadId t) (QueryRow lead);
         EvToast
           (errorToast
              (match LeadRow.error_message lead with
               | Some (String c s) => String c s
               | _ => "Failed to generate estimate"
               end))])).
Proof.
  intros Ht Hin Hr Hst. rewrite (pollTick_active gw h t w Ht). simpl.
  rewrite (bool_decide_eq_false_2 (ESTIMATE_TIMEOUT ≤ _)%Z) by lia.
  rewrite Hr, Hst. simpl. rewrite <- app_assoc. simpl.
  by destruct (LeadRow.error_message lead) as [[|c s]|].
Qed.

Lemma poll_error_status_witness :
  let w' := (pollTick job_failed 0 polling_world).2 in
  last (log w') = Some (EvToast (errorToast "model quota exceeded"))
  ∧ estimate (flow w') = JNull
  ∧ stage (flow w') = stage_photo.
Proof.
  rewrite (poll_error_status job_failed 0 (mkPollTimer "lead-1" 0) polling_world
             (LeadRow.mk (JString "partial") (Some "error")
                (Some "model quota exceeded")) eq_refl eq_refl eq_refl eq_refl).
  repeat split.
Defined.

(** An interval with [n] firings left before the ceiling is cleared after
    [n] firings at the latest, having made at most [n - 1] queries. *)
Lemma ticks_stop (config : EstimateConfig) (gw : Gateway) (h : nat) (n : nat) :
  ∀ (w : World) (t : PollTimer),
    timers w !! h = Some t →
    1 ≤ n →
    (ESTIMATE_TIMEOUT ≤ timeElapsed t + POLL_INTERVAL * Z.of_nat n)%Z →
    let w' := run config gw (replicate n (Tick h)) w in
    timers w' !! h = None
    ∧ isGeneratingEstimate (flow w') = false
    ∧ count is_query (log w') + 1 ≤ count is_query (log w) + n.
Proof.
  induction n as [|n IH]; intros w t Ht Hn Hceil; [lia|].
  cbv zeta. rewrite replicate_S, run_cons.
  set (w1 := step config gw (Tick h) w).
  assert (Hcases :
    (timers w1 !! h
     = Some (mkPollTimer (timer_leadId t) (timeElapsed t + POLL_INTERVAL))
     ∧ (timeElapsed t + POLL_INTERVAL < ESTIMATE_TIMEOUT)%Z
     ∧ count is_query (log w1) = count is_query (log w) + 1)
    ∨ (timers w1 !! h = None
       ∧ isGeneratingEstimate (flow w1) = false
       ∧ count is_query (log w1) + 1 ≤ count is_query (log w) + S n)).
  { unfold w1, step. simpl. rewrite (pollTick_active gw h t w Ht). simpl.
    case_bool_decide as Hto; simpl.
    { right. rewrite lookup_delete_eq. count_norm. repeat split; lia. }
    assert (2 ≤ S n) by (unfold ESTIMATE_TIMEOUT, POLL_INTERVAL in *; lia).
    destruct (query_reply gw _) as [e| |lead]; simpl.
    - right. rewrite lookup_delete_eq, <- app_assoc. count_norm. repeat split; lia.
    - left. rewrite lookup_insert_eq. count_norm. repeat split; lia.
    - case_bool_decide; simpl.
      + right. rewrite lookup_delete_eq, <- app_assoc. count_norm.
        repeat split; lia.
      + destruct (bool_decide _ && truthy_json _); simpl.
        * right. rewrite lookup_delete_eq. count_norm. repeat split; lia.
        * left. rewrite lookup_insert_eq. count_norm. repeat split; lia. }
  destruct Hcases as [(Hk & Hin & Hq)|(Hc & Hf & Hq)].
  - destruct (IH w1 _ Hk) as (H1 & H2 & H3); simpl;
      [unfold ESTIMATE_TIMEOUT, POLL_INTERVAL in *; lia..|].
    repeat split; [done|done|lia].
  - by rewrite ticks_inactive.
Qed.

(** X10. Whatever the gateway replies afterwards, a poll that has been
    started is over after at most 40 firings of its timer: the interval is
    cleared, [isGeneratingEstimate] is false, at most 39 status queries
    have been made, and further firings change nothing. *)
Theorem poll_always_stops (config : EstimateConfig) (gw : Gateway)
    (snap : FlowState) (leadId : string) (w : World) :
  invoke_reply gw (count is_invoke (log w)) = InvokeOk →
  let h := nextTimer w in
  let started := (startEstimateGeneration config gw snap leadId w).2 in
  let w' := run config gw (replicate 40 (Tick h)) started in
  timers w' !! h = None
  ∧ isGeneratingEstimate (flow w') = false
  ∧ count is_query (log w') ≤ count is_query (log w) + 39
  ∧ ∀ n, run config gw (replicate n (Tick h)) w' = w'.
Proof.
  intros Hinv h started w'.
  assert (Hstart : timers started !! h = Some (mkPollTimer leadId 0)
                   ∧ count is_query (log started) = count is_query (log w)).
  { subst started h. rewrite startEstimateGeneration_eq. simpl. rewrite Hinv.
    simpl. rewrite lookup_insert_eq. count_norm. split; [done|lia]. }
  destruct Hstart as [Ht Hq].
  destruct (ticks_stop config gw h 40 started _ Ht) as (H1 & H2 & H3);
    [lia|reflexivity|].
  fold w' in H1, H2, H3. repeat split; [done|done|lia|].
  intros n. by apply ticks_inactive.
Qed.

Lemma poll_always_stops_witness :
  let started :=
    (startEstimateGeneration sample_config queries_rejected initialFlow "lead-1"
       initialWorld).2 in
  let w' := run sample_config queries_rejected (replicate 40 (Tick 0)) started in
  timers w' !! 0 = None ∧ isGeneratingEstimate (flow w') = false.
Proof.
  destruct (poll_always_stops sample_config queries_rejected initialFlow "lead-1"
              initialWorld eq_refl) as (Hc & Hf & _).
  split; [exact Hc|exact Hf].
Defined.

(** ** Invariants of a session *)

Lemma created_ids_app (l1 l2 : list Event) :
  created_ids (l1 ++ l2) = created_ids l1 ++ created_ids l2.
Proof. apply omap_app. Qed.

Lemma created_mono (l l' : list Event) (id : string) :
  id ∈ created_ids l → id ∈ created_ids (l ++ l').
Proof. rewrite created_ids_app, elem_of_app. by left. Qed.

Lemma created_new (l l' : list Event) (d : LeadInsert.t) (r : InsertResult) :
  insert_failed r = false →
  truthy_string (insert_id r) = true
  ∧ insert_id r ∈ created_ids (l ++ EvInsert d r :: l').
Proof.
  intros Hok. destruct r as [e|[id|]]; simpl in *; try done.
  destruct (truthy_string id) eqn:Hid; [|done]. split; [done|].
  rewrite created_ids_app, elem_of_app. right. unfold created_ids. simpl.
  rewrite Hid. apply elem_of_cons. by left.
Qed.

Lemma ordered_from_app (seen : list string) (l1 l2 : list Event) :
  ordered_from seen (l1 ++ l2)
  ↔ ordered_from seen l1 ∧ ordered_from (seen ++ created_ids l1) l2.
Proof.
  revert seen. induction l1 as [|e l1 IH]; intros seen; simpl.
  - rewrite app_nil_r. tauto.
  - rewrite IH. unfold created_ids. simpl.
    destruct (created_id e); simpl; rewrite <- ?app_assoc, ?app_nil_r; simpl; tauto.
Qed.

Lemma or_else_truthy (a : option string) (d : string) :
  truthy_string d = true → truthy_string (or_else a d) = true.
Proof.
  intros Hd. destruct a as [s|]; simpl; [|done].
  by destruct (truthy_string s) eqn:Hs.
Qed.

Lemma inv_initial (config : EstimateConfig) : SessionInv config initialWorld.
Proof.
  constructor; simpl; try done.
  - intros d r Hin. by apply elem_of_nil in Hin.
Qed.

(** The description of a lead to insert is never empty. *)
Lemma leadData_described (config : EstimateConfig) (snap : FlowState)
    (d : LeadInsert.t) :
  (∃ a, d = questionsLeadData config snap a)
  ∨ (∃ c, d = contactLeadData config snap c)
  ∨ d = skipLeadData config snap →
  truthy_string (LeadInsert.project_description d) = true.
Proof.
  intros [[a ->]|[[c ->]| ->]];
    unfold questionsLeadData, contactLeadData, skipLeadData;
    cbn [LeadInsert.project_description]; by apply or_else_truthy.
Qed.

Lemma insert_id_truthy (r : InsertResult) :
  insert_failed r = false → truthy_string (insert_id r) = true.
Proof.
  intros Hok. destruct r as [e|[id|]]; simpl in *; try done.
  by destruct (truthy_string id).
Qed.

Lemma created_id_ok (d : LeadInsert.t) (r : InsertResult) :
  insert_failed r = false → created_id (EvInsert d r) = Some (insert_id r).
Proof.
  intros Hok. destruct r as [e|[id|]]; simpl in *; try done.
  by destruct (truthy_string id).
Qed.

(** Closes one field of [SessionInv] for a world given explicitly in terms
    of a world [w] that satisfies the invariant. *)
Ltac inv_timers Hl :=
  try (apply lookup_delete_Some in Hl as [_ Hl]);
  try (apply lookup_insert_Some in Hl as [[_ <-]|[_ Hl]]); simpl.

Ltac inv_inserts I5 Hin :=
  try (by edestruct I5 as (?&?&?&?); [eassumption|]);
  try (apply elem_of_app in Hin as [Hin|Hin];
       [by edestruct I5 as (?&?&?&?); [eassumption|]|]);
  repeat (apply elem_of_cons in Hin as [Hin|Hin];
          [simplify_eq; repeat split; try done; eapply leadData_described; eauto|]);
  try (by apply elem_of_nil in Hin).

Ltac inv_field I1 I2 I3 I5 :=
  try match goal with
      | H : currentLeadId (flow _) = _ |- _ => rewrite H; simpl
      end;
  match goal with
  | |- ∀ id, _ = Some id → truthy_string id = true ∧ _ ∈ created_ids _ =>
      let id := fresh "id" in
      let Hid := fresh "Hid" in
      intros id Hid;
      first
        [ destruct (I1 id Hid) as [? ?]; split;
          [done|first [done|by apply created_mono]]
        | simplify_eq; by apply created_new ]
  | |- ∀ h t, _ !! h = Some t → _ ∈ created_ids _ ∧ _ =>
      let h' := fresh "h'" in
      let t' := fresh "t'" in
      let Hl := fresh "Hl" in
      intros h' t' Hl; inv_timers Hl;
      try (destruct (I2 h' t' Hl) as [? ?]);
      (split;
       first
         [ done
         | by apply created_mono
         | by apply created_new
         | by eapply created_mono, I2
         | by eapply I2
         | by eapply created_mono, I1
         | by eapply I1
         | by apply insert_id_truthy
         | idtac ])
  | |- ∀ h t, _ !! h = Some t → ∃ k : nat, _ =>
      let h' := fresh "h'" in
      let t' := fresh "t'" in
      let Hl := fresh "Hl" in
      intros h' t' Hl; inv_timers Hl;
      first [ by eapply I3 | exists 0; split; [lia|reflexivity] | idtac ]
  | |- ∀ d r, EvInsert d r ∈ _ → _ =>
      let d := fresh "d" in
      let r := fresh "r" in
      let Hin := fresh "Hin" in
      intros d r Hin; inv_inserts I5 Hin
  | |- ordered_from [] _ =>
      first
        [ done
        | apply ordered_from_app; split; [done|]; simpl;
          rewrite ?created_id_ok by done; simpl;
          repeat split; try done; try set_solver ]
  | |- _ = true → ∃ h t, _ !! h = Some t =>
      first
        [ done
        | intros _; eexists _, _; apply lookup_insert_eq
        | match goal with
          | H : _ = true → ∃ h t, _ !! h = Some t |- _ => intros _; by apply H
          end
        | idtac ]
  | _ => idtac
  end.

Section Invariant.
Variable config : EstimateConfig.
Variable gw : Gateway.

(** Starting the job keeps the invariant, given that the lead it is
    started for has been created and is held. *)
Lemma inv_start (snap : FlowState) (leadId : string) (w : World) :
  SessionInv config
    (mkWorld (with_isGeneratingEstimate false (flow w)) (timers w) (nextTimer w)
       (log w)) →
  leadId ∈ created_ids (log w) →
  truthy_opt (currentLeadId (flow w)) = true →
  SessionInv config (startEstimateGeneration config gw snap leadId w).2.
Proof.
  intros [I1 I2 I3 I4 I5 I6 I7] Hid Hheld. simpl in *.
  rewrite startEstimateGeneration_eq. simpl.
  destruct (invoke_reply gw _); simpl; rewrite <- ?app_assoc; simpl;
    constructor; simpl; inv_field I1 I2 I3 I5; try done.
Qed.

(** A change of stage keeps the invariant. *)
Lemma inv_stage (st : EstimateStage) (w : World) :
  SessionInv config w →
  SessionInv config
    (mkWorld (with_stage st (flow w)) (timers w) (nextTimer w) (log w)).
Proof. intros [I1 I2 I3 I4 I5 I6 I7]. by constructor. Qed.

(** Every trigger keeps the invariant. *)
Lemma inv_step (t : Trigger) (w : World) :
  SessionInv config w → SessionInv config (step config gw t w).
Proof.
  intros Hinv. pose proof Hinv as [I1 I2 I3 I4 I5 I6 I7].
  unfold step. destruct t as [urls|d|c|a|c| |h]; simpl.
  - unfold handlePhotoUpload. flow_simpl.
    case_bool_decide; simpl; constructor; simpl; inv_field I1 I2 I3 I5; try done.
  - unfold handleDescriptionSubmit. flow_simpl.
    destruct (matcher_reply gw _) as [e|sets]; simpl;
      [constructor; simpl; inv_field I1 I2 I3 I5; try done|].
    case_bool_decide; simpl;
      [constructor; simpl; inv_field I1 I2 I3 I5; try done|].
    destruct (truthy_opt (CategoryQuestions.category <$> sets !! 0)); simpl;
      constructor; simpl; inv_field I1 I2 I3 I5; try done.
  - constructor; simpl; inv_field I1 I2 I3 I5; try done.
  - rewrite handleQuestionComplete_eq. simpl.
    destruct (truthy_opt (contractorId config)) eqn:Hcfg; simpl;
      [|constructor; simpl; inv_field I1 I2 I3 I5; try done].
    destruct (insert_failed _) eqn:Hok; simpl.
    + rewrite <- ?app_assoc. simpl.
      constructor; simpl; inv_field I1 I2 I3 I5; try done.
    + apply inv_start; simpl.
      * constructor; simpl; inv_field I1 I2 I3 I5; try done.
      * by apply (created_new _ []).
      * by apply insert_id_truthy.
  - rewrite handleContactSubmit_eq. simpl.
    destruct (truthy_opt (contractorId config)) eqn:Hcfg; simpl;
      [|constructor; simpl; inv_field I1 I2 I3 I5; try done].
    destruct (currentLeadId (flow w)) as [held|] eqn:Hcl; simpl.
    + destruct (I1 held eq_refl) as [Hheld Hcreated]. rewrite Hheld.
      destruct (update_failed _) eqn:Hupd; simpl.
      * constructor; simpl; inv_field I1 I2 I3 I5; try done.
      * destruct (isGeneratingEstimate (flow w)) eqn:Hflag; simpl.
        -- constructor; simpl; inv_field I1 I2 I3 I5; try done.
        -- apply inv_start; simpl.
           ++ constructor; simpl; inv_field I1 I2 I3 I5; try done.
           ++ by apply created_mono.
           ++ by rewrite Hcl.
    + destruct (insert_failed _) eqn:Hok; simpl.
      * constructor; simpl; inv_field I1 I2 I3 I5; try done.
      * apply inv_start; simpl.
        -- constructor; simpl; inv_field I1 I2 I3 I5; try done.
        -- by apply (created_new _ []).
        -- by apply insert_id_truthy.
  - rewrite handleSkip_eq. simpl.
    destruct (truthy_opt (contractorId config)) eqn:Hcfg; simpl; [|done].
    destruct (insert_failed _) eqn:Hok; simpl.
    + rewrite <- ?app_assoc. simpl.
      constructor; simpl; inv_field I1 I2 I3 I5; try done.
    + apply inv_stage, inv_start; simpl.
      * constructor; simpl; inv_field I1 I2 I3 I5; try done.
      * by apply (created_new _ []).
      * by apply insert_id_truthy.
  - destruct (timers w !! h) as [t|] eqn:Ht; [|by rewrite pollTick_inactive].
    rewrite (pollTick_active gw h t w Ht). simpl.
    destruct (I2 h t Ht) as [Hlead Hheld].
    destruct (I3 h t Ht) as (k & Hk & Hclock).
    assert (Hnext : ¬ (ESTIMATE_TIMEOUT ≤ timeElapsed t + POLL_INTERVAL)%Z →
                    ∃ k' : nat, k' ≤ 39
                      ∧ (timeElapsed t + POLL_INTERVAL)%Z
                        = (POLL_INTERVAL * Z.of_nat k')%Z).
    { intros Hto. exists (S k). unfold ESTIMATE_TIMEOUT, POLL_INTERVAL in *.
      split; lia. }
    case_bool_decide as Hto; simpl;
      [constructor; simpl; inv_field I1 I2 I3 I5; try done|].
    specialize (Hnext Hto).
    destruct (query_reply gw _) as [e| |lead]; simpl; rewrite <- ?app_assoc; simpl.
    + constructor; simpl; inv_field I1 I2 I3 I5; try done.
    + constructor; simpl; inv_field I1 I2 I3 I5; try done.
    + case_bool_decide; simpl; rewrite <- ?app_assoc; simpl;
        [constructor; simpl; inv_field I1 I2 I3 I5; try done|].
      destruct (bool_decide _ && truthy_json _); simpl;
        constructor; simpl; inv_field I1 I2 I3 I5; try done.
Qed.

(** The invariant holds throughout every session. *)
Lemma inv_run (ts : list Trigger) :
  SessionInv config (run config gw ts initialWorld).
Proof.
  induction ts as [|t ts IH] using rev_ind; [apply inv_initial|].
  rewrite run_snoc. by apply inv_step.
Qed.
End Invariant.

(** X12. In every session, the clock of a running interval is a multiple
    of [POLL_INTERVAL] that is at most 39 intervals, hence below
    [ESTIMATE_TIMEOUT]: no interval outlives the ceiling. *)
Theorem running_interval_below_ceiling (config : EstimateConfig) (gw : Gateway)
    (ts : list Trigger) (h : nat) (t : PollTimer) :
  timers (run config gw ts initialWorld) !! h = Some t →
  (∃ k : nat, k ≤ 39 ∧ timeElapsed t = (POLL_INTERVAL * Z.of_nat k)%Z)
  ∧ (0 ≤ timeElapsed t < ESTIMATE_TIMEOUT)%Z.
Proof.
  intros Ht. destruct (inv_timer_clock _ _ (inv_run config gw ts) h t Ht)
    as (k & Hk & Hclock).
  split; [by exists k|]. rewrite Hclock.
  unfold ESTIMATE_TIMEOUT, POLL_INTERVAL. lia.
Qed.

Lemma running_interval_below_ceiling_witness :
  (0 ≤ 3000 < ESTIMATE_TIMEOUT)%Z.
Proof.
  exact (proj2 (running_interval_below_ceiling sample_config always_pending
                  polled_once 0 (mkPollTimer "lead-1" 3000) eq_refl)).
Defined.

(** X13. In every session, the held lead id is a non-empty id that an
    insert of this session returned; every running interval polls such an
    id; and every update, job invocation and status query comes after the
    insert that returned the id it is about. *)
Theorem lead_ids_come_from_inserts (config : EstimateConfig) (gw : Gateway)
    (ts : list Trigger) :
  let w := run config gw ts initialWorld in
  (∀ id, currentLeadId (flow w) = Some id →
         truthy_string id = true ∧ id ∈ created_ids (log w))
  ∧ (∀ h t, timers w !! h = Some t → timer_leadId t ∈ created_ids (log w))
  ∧ ordered_from [] (log w).
Proof.
  destruct (inv_run config gw ts) as [I1 I2 _ I4 _ _ _].
  split; [done|]. split; [|done]. intros h t Ht. by destruct (I2 h t Ht).
Qed.

Lemma lead_ids_come_from_inserts_witness :
  "lead-1" ∈ created_ids (log (run sample_config always_pending polled_once initialWorld)).
Proof.
  destruct (lead_ids_come_from_inserts sample_config always_pending polled_once)
    as (Hheld & _).
  exact (proj2 (Hheld "lead-1" eq_refl)).
Defined.

(** X14. In every session, every lead handed to the gateway for insertion
    has status "pending", the configured contractor id, which is present,
    and a non-empty project description. *)
Theorem inserted_leads_wellformed (config : EstimateConfig) (gw : Gateway)
    (ts : list Trigger) (d : LeadInsert.t) (r : InsertResult) :
  EvInsert d r ∈ log (run config gw ts initialWorld) →
  LeadInsert.status d = "pending"
  ∧ LeadInsert.contractor_id d = contractorId config
  ∧ truthy_opt (contractorId config) = true
  ∧ truthy_string (LeadInsert.project_description d) = true.
Proof. apply (inv_inserts _ _ (inv_run config gw ts)). Qed.

Lemma inserted_leads_wellformed_witness :
  LeadInsert.status (skipLeadData sample_config initialFlow) = "pending"
  ∧ LeadInsert.contractor_id (skipLeadData sample_config initialFlow)
    = Some "contractor-1"
  ∧ truthy_opt (Some "contractor-1") = true
  ∧ truthy_string
      (LeadInsert.project_description (skipLeadData sample_config initialFlow))
    = true.
Proof.
  apply (inserted_leads_wellformed sample_config always_pending [Skip]
           (skipLeadData sample_config initialFlow) (InsertData (Some "lead-1"))).
  vm_compute. constructor.
Defined.



(** X16. No handler writes [progress] or [completedCategories]: in every
    session they keep their initial values, 0 and the empty list. *)
Theorem progress_never_written (config : EstimateConfig) (gw : Gateway)
    (ts : list Trigger) :
  progress (flow (run config gw ts initialWorld)) = 0%Z
  ∧ completedCategories (flow (run config gw ts initialWorld)) = [].
Proof. apply (inv_unwritten _ _ (inv_run config gw ts)). Qed.

(** ** Calls made by one trigger *)

(** Whatever precedes a job invocation among explicitly listed events
    contains one insert or update. *)
Ltac invoke_order :=
  let pre := fresh "pre" in
  let Heq := fresh "Heq" in
  intros pre ? ? ? Heq;
  do 4 (destruct pre as [|? pre]; simplify_eq/=; try (count_norm; done)).

(** Exhibits the [n] events a trigger appended to the log, counts them and
    places the job invocation among them. *)
Ltac bounds n :=
  rewrite <- ?app_assoc; simpl;
  match n with
  | 0 => exists []; split; [by rewrite app_nil_r|]
  | 1 => eexists [_]; split; [reflexivity|]
  | 2 => eexists [_; _]; split; [reflexivity|]
  | 3 => eexists [_; _; _]; split; [reflexivity|]
  end;
  count_norm; repeat (split; [lia|]); invoke_order.

(** X17. One trigger makes at most one call of each kind (matcher, insert,
    update, job invocation, status query) and surfaces at most one
    notification; it never makes both an insert and an update; and it
    invokes the job only after an insert or an update made by the same
    trigger: among the events the trigger appends to the log, those before
    the job invocation contain exactly one insert or update. *)
Theorem step_call_bounds (config : EstimateConfig) (gw : Gateway) (t : Trigger)
    (w : World) :
  ∃ new,
    log (step config gw t w) = log w ++ new
    ∧ count is_match new ≤ 1
    ∧ count is_insert new + count is_update new ≤ 1
    ∧ count is_invoke new ≤ count is_insert new + count is_update new
    ∧ count is_query new ≤ 1
    ∧ count is_toast new ≤ 1
    ∧ (∀ pre body reply post,
         new = pre ++ EvInvoke body reply :: post →
         count is_insert pre + count is_update pre = 1
         ∧ count is_invoke pre = 0).
Proof.
  unfold step. destruct t as [urls|d|c|a|c| |h]; simpl.
  - unfold handlePhotoUpload. flow_simpl. case_bool_decide; simpl; bounds 0.
  - unfold handleDescriptionSubmit. flow_simpl.
    destruct (matcher_reply gw _) as [e|sets]; simpl; [bounds 1|].
    case_bool_decide; simpl; [bounds 1|].
    destruct (truthy_opt (CategoryQuestions.category <$> sets !! 0)); simpl;
      bounds 1.
  - bounds 0.
  - rewrite handleQuestionComplete_eq. simpl.
    destruct (truthy_opt (contractorId config)); simpl; [|bounds 1].
    destruct (insert_failed _); simpl; [bounds 2|].
    rewrite startEstimateGeneration_eq. simpl.
    destruct (invoke_reply gw _); simpl; [bounds 3|bounds 2].
  - rewrite handleContactSubmit_eq. simpl.
    destruct (truthy_opt (contractorId config)); simpl; [|bounds 1].
    destruct (truthy_opt (currentLeadId (flow w))); simpl.
    + destruct (update_reply gw _); simpl; [bounds 2|].
      destruct (isGeneratingEstimate (flow w)); simpl; [bounds 1|].
      rewrite startEstimateGeneration_eq. simpl.
      destruct (invoke_reply gw _); simpl; [bounds 3|bounds 2].
    + destruct (insert_failed _); simpl; [bounds 2|].
      rewrite startEstimateGeneration_eq. simpl.
      destruct (invoke_reply gw _); simpl; [bounds 3|bounds 2].
  - rewrite handleSkip_eq. simpl.
    destruct (truthy_opt (contractorId config)); simpl; [|bounds 0].
    destruct (insert_failed _); simpl; [bounds 2|].
    rewrite startEstimateGeneration_eq. simpl.
    destruct (invoke_reply gw _); simpl; [bounds 3|bounds 2].
  - destruct (timers w !! h) as [t|] eqn:Ht;
      [|rewrite pollTick_inactive by done; bounds 0].
    rewrite (pollTick_active gw h t w Ht). simpl.
    case_bool_decide; simpl; [bounds 1|].
    destruct (query_reply gw _) as [e| |lead]; simpl; [bounds 2|bounds 1|].
    case_bool_decide; simpl; [bounds 2|].
    destruct (bool_decide _ && truthy_json _); simpl; bounds 1.
Qed.

(** X18. On the category path (no matched question set is stored) the
    answers do not reach the lead's description, unless a category is
    literally named "undefined": the description is the project
    description when that is non-empty and "New project" otherwise. *)
Theorem category_path_description (config : EstimateConfig) (snap : FlowState)
    (given : AnswersState) :
  matchedQuestionSets snap = [] →
  given !! "undefined" = None →
  LeadInsert.project_description (questionsLeadData config snap given)
  = (if truthy_string (projectDescription snap) then projectDescription snap
     else "New project").
Proof.
  intros Hsets Hundef. unfold questionsLeadData, currentCategory, firstAnswerOf.
  rewrite Hsets. simpl. rewrite Hundef. simpl.
  by destruct (truthy_string (projectDescription snap)) eqn:Hd; rewrite ?Hd.
Qed.

Lemma category_path_description_witness :
  LeadInsert.project_description
    (questionsLeadData sample_config initialFlow sample_answers)
  = "New project".
Proof.
  exact (category_path_description sample_config initialFlow sample_answers
           eq_refl eq_refl).
Defined.

(** ** More on the answer formatter *)

(** X19. For a category not named "__proto__", formatting commutes with
    editing the answers: setting the category formats it and leaves the
    other properties and the prototype, removing it removes the
    property, and the property is absent from the result exactly when the
    category is absent from the input. *)
Theorem formatAnswersForJson_edits (given : AnswersState) (category : string)
    (categoryAnswers : option (gmap string QuestionAnswer.t)) :
  category ≠ "__proto__" →
  formatAnswersForJson (<[category := categoryAnswers]> given)
  = mkPlainObject
      (<[category := formatCategoryAnswers (default ∅ categoryAnswers)]>
         (own (formatAnswersForJson given)))
      (proto (formatAnswersForJson given))
  ∧ formatAnswersForJson (delete category given)
    = mkPlainObject (delete category (own (formatAnswersForJson given)))
        (proto (formatAnswersForJson given))
  ∧ (own (formatAnswersForJson given) !! category = None ↔ given !! category = None).
Proof.
  intros Hne. rewrite !formatAnswersForJson_eq. simpl. split; [|split].
  - by rewrite delete_insert_ne, fmap_insert, lookup_insert_ne.
  - by rewrite delete_delete, fmap_delete, lookup_delete_ne.
  - rewrite lookup_fmap, lookup_delete_ne by done. by destruct (given !! category).
Qed.

Lemma formatAnswersForJson_edits_witness :
  own (formatAnswersForJson sample_answers) !! "plumbing" = None.
Proof.
  destruct (formatAnswersForJson_edits sample_answers "plumbing" None)
    as (_ & _ & Habsent); [discriminate|].
  apply Habsent. reflexivity.
Defined.

#[local] Instance formatAnswer_inj : Inj (=) (=) formatAnswer.
Proof.
  intros [q1 t1 a1 o1] [q2 t2 a2 o2] Heq. unfold formatAnswer in Heq.
  simpl in Heq. by simplify_eq.
Qed.

(** X20. On answer states that use the name "__proto__" neither for a
    category nor for a question id, and in which every category has its
    answers object, the formatter is one-to-one: equal results come from
    equal inputs. *)
Theorem formatAnswersForJson_injective (a b : AnswersState) :
  (∀ category, a !! category ≠ Some None) →
  (∀ category, b !! category ≠ Some None) →
  a !! "__proto__" = None →
  b !! "__proto__" = None →
  (∀ category m, a !! category = Some (Some m) → m !! "__proto__" = None) →
  (∀ category m, b !! category = Some (Some m) → m !! "__proto__" = None) →
  formatAnswersForJson a = formatAnswersForJson b →
  a = b.
Proof.
  intros Ha Hb Hpa Hpb Hqa Hqb Heq. rewrite !formatAnswersForJson_eq in Heq.
  injection Heq as Hown _. rewrite !delete_id in Hown by done.
  apply map_eq. intros category.
  assert (Hk := f_equal (λ m : gmap string (PlainObject FormattedAnswer.t),
                           m !! category) Hown).
  simpl in Hk. rewrite !lookup_fmap in Hk.
  specialize (Ha category). specialize (Hb category).
  specialize (Hqa category). specialize (Hqb category).
  destruct (a !! category) as [[ma|]|], (b !! category) as [[mb|]|];
    simpl in Hk; try done.
  injection Hk as Hk. rewrite !formatCategoryAnswers_eq in Hk.
  injection Hk as Hk _.
  rewrite !delete_id in Hk by eauto.
  by apply (inj (fmap formatAnswer)) in Hk as ->.
Qed.

Lemma formatAnswersForJson_injective_witness : sample_answers = rebuilt_answers.
Proof.
  assert (Hlookup : ∀ category : string,
            sample_answers !! category
            = if decide (category = "roofing")
              then Some (Some {[ "Q1" := sample_answer ]}) else None).
  { intros category. unfold sample_answers. case_decide as Hc.
    - subst. apply lookup_singleton_eq.
    - by apply lookup_singleton_ne. }
  assert (Hdefined : ∀ category : string, sample_answers !! category ≠ Some None).
  { intros category. rewrite Hlookup. by case_decide. }
  assert (Hquestions : ∀ (category : string) (m : gmap string QuestionAnswer.t),
            sample_answers !! category = Some (Some m) → m !! "__proto__" = None).
  { intros category m. rewrite Hlookup. case_decide; [|done].
    intros Hm. by simplify_eq. }
  apply formatAnswersForJson_injective;
    [exact Hdefined|exact Hdefined|reflexivity|reflexivity
    |exact Hquestions|exact Hquestions|reflexivity].
Defined.

(** X21. A category whose answers object is missing ([undefined]) is
    formatted exactly like a category with no answers; for a category not
    named "__proto__" the result holds an empty object for it. *)
Theorem formatAnswersForJson_missing_category (given : AnswersState)
    (category : string) :
  formatAnswersForJson (<[category := None]> given)
  = formatAnswersForJson (<[category := Some ∅]> given)
  ∧ (category ≠ "__proto__" →
     own (formatAnswersForJson (<[category := None]> given)) !! category
     = Some emptyObject).
Proof.
  rewrite !formatAnswersForJson_eq. simpl. split.
  - destruct (decide (category = "__proto__")) as [->|Hne].
    + by rewrite !delete_insert_eq, !lookup_insert_eq.
    + by rewrite !delete_insert_ne, !fmap_insert, !lookup_insert_ne.
  - intros Hne. rewrite delete_insert_ne, fmap_insert, lookup_insert_eq by done.
    done.
Qed.

Lemma formatAnswersForJson_missing_category_witness :
  own (formatAnswersForJson (<["roofing" := None]> sample_answers)) !! "roofing"
  = Some emptyObject.
Proof.
  apply (formatAnswersForJson_missing_category sample_answers "roofing").
  discriminate.
Defined.

(** ** Intervals are never cancelled from outside *)

(** A trigger is a firing of a timer or a call of a handler. *)
Lemma tick_or_handler (t : Trigger) : (∃ h, t = Tick h) ∨ (∀ h, t ≠ Tick h).
Proof. destruct t; (by right) || (left; by eexists). Qed.

(** A handler leaves the intervals as they are or creates one, under the
    next handle. *)
Lemma handler_timers (config : EstimateConfig) (gw : Gateway) (t : Trigger)
    (w : World) :
  (∀ h, t ≠ Tick h) →
  let w' := step config gw t w in
  (timers w' = timers w ∧ nextTimer w' = nextTimer w)
  ∨ (∃ id, timers w' = <[nextTimer w := mkPollTimer id 0]> (timers w)
           ∧ nextTimer w' = S (nextTimer w)).
Proof.
  intros Hhandler. unfold step.
  destruct t as [urls|d|c|a|c| |h]; simpl; [| | | | | |by destruct (Hhandler h)].
  - unfold handlePhotoUpload. flow_simpl. case_bool_decide; simpl; by left.
  - unfold handleDescriptionSubmit. flow_simpl.
    destruct (matcher_reply gw _) as [e|sets]; simpl; [by left|].
    case_bool_decide; simpl; [by left|].
    destruct (truthy_opt (CategoryQuestions.category <$> sets !! 0)); simpl;
      by left.
  - by left.
  - rewrite handleQuestionComplete_eq. simpl.
    destruct (truthy_opt (contractorId config)); simpl; [|by left].
    destruct (insert_failed _); simpl; [by left|].
    rewrite startEstimateGeneration_eq. simpl.
    destruct (invoke_reply gw _); simpl; [by left|right; by eexists].
  - rewrite handleContactSubmit_eq. simpl.
    destruct (truthy_opt (contractorId config)); simpl; [|by left].
    destruct (truthy_opt (currentLeadId (flow w))); simpl.
    + destruct (update_failed _); simpl; [by left|].
      destruct (isGeneratingEstimate (flow w)); simpl; [by left|].
      rewrite startEstimateGeneration_eq. simpl.
      destruct (invoke_reply gw _); simpl; [by left|right; by eexists].
    + destruct (insert_failed _); simpl; [by left|].
      rewrite startEstimateGeneration_eq. simpl.
      destruct (invoke_reply gw _); simpl; [by left|right; by eexists].
  - rewrite handleSkip_eq. simpl.
    destruct (truthy_opt (contractorId config)); simpl; [|by left].
    destruct (insert_failed _); simpl; [by left|].
    rewrite startEstimateGeneration_eq. simpl.
    destruct (invoke_reply gw _); simpl; [by left|right; by eexists].
Qed.

(** A firing creates no interval and does not move the next handle. *)
Lemma tick_handles (gw : Gateway) (h : nat) (w : World) :
  nextTimer (pollTick gw h w).2 = nextTimer w
  ∧ ∀ h', is_Some (timers (pollTick gw h w).2 !! h') → is_Some (timers w !! h').
Proof.
  destruct (timers w !! h) as [t|] eqn:Ht;
    [|by rewrite pollTick_inactive].
  assert (Hdel : ∀ h', is_Some (delete h (timers w) !! h') →
                       is_Some (timers w !! h')).
  { intros h' [x Hx]. apply lookup_delete_Some in Hx as [_ Hx]. by eexists. }
  assert (Hins : ∀ x h', is_Some (<[h := x]> (timers w) !! h') →
                         is_Some (timers w !! h')).
  { intros x h' Hx. destruct (decide (h = h')) as [<-|Hne].
    - by eexists.
    - by rewrite lookup_insert_ne in Hx. }
  rewrite (pollTick_active gw h t w Ht). simpl.
  case_bool_decide; simpl; [by split|].
  destruct (query_reply gw _) as [e| |lead]; simpl;
    [by split|split; [done|apply Hins]|].
  case_bool_decide; simpl; [by split|].
  destruct (bool_decide _ && truthy_json _); simpl;
    [by split|split; [done|apply Hins]].
Qed.

(** In every session the handle of a running interval is below the next
    handle: [setInterval] never hands out the handle of a running
    interval. *)
Lemma handles_fresh (config : EstimateConfig) (gw : Gateway) (ts : list Trigger)
    (h : nat) :
  let w := run config gw ts initialWorld in
  is_Some (timers w !! h) → h < nextTimer w.
Proof.
  simpl. revert h. induction ts as [|t ts IH] using rev_ind; intros h.
  - simpl. rewrite lookup_empty. by intros [? ?].
  - rewrite run_snoc. set (w := run config gw ts initialWorld) in *.
    destruct (tick_or_handler t) as [[h' ->]|Hhandler].
    + unfold step. simpl. destruct (tick_handles gw h' w) as [-> Hsub].
      intros Hh%Hsub. by apply IH.
    + destruct (handler_timers config gw t w Hhandler)
        as [[-> ->]|(id & -> & ->)]; [apply IH|].
      destruct (decide (nextTimer w = h)) as [<-|Hne]; [lia|].
      rewrite lookup_insert_ne by done. intros Hh%IH. lia.
Qed.

(** X22. In every session, a running interval is cleared only by one of
    its own firings: any other trigger leaves its entry, clock included,
    as it was.  A handler that starts a job while a poll is running
    creates the new interval under a handle no running interval has, so
    the old interval keeps running beside the new one and the number of
    running intervals grows by one. *)
Theorem interval_cleared_only_by_own_tick (config : EstimateConfig) (gw : Gateway)
    (ts : list Trigger) (t : Trigger) (h : nat) (tm : PollTimer) :
  let w := run config gw ts initialWorld in
  let w' := step config gw t w in
  timers w !! h = Some tm →
  t ≠ Tick h →
  timers w' !! h = Some tm
  ∧ ((∀ h', t ≠ Tick h') →
     timers w' = timers w
     ∨ ∃ id, timers w !! nextTimer w = None
             ∧ timers w' = <[nextTimer w := mkPollTimer id 0]> (timers w)
             ∧ size (timers w') = S (size (timers w))).
Proof.
  intros w w' Htm Hother.
  assert (Hunused : timers w !! nextTimer w = None).
  { destruct (timers w !! nextTimer w) as [x|] eqn:Hx; [|done].
    pose proof (handles_fresh config gw ts (nextTimer w)) as Hlt.
    simpl in Hlt. fold w in Hlt. rewrite Hx in Hlt.
    specialize (Hlt (mk_is_Some _ _ eq_refl)). lia. }
  assert (Hh : h ≠ nextTimer w) by (intros ->; congruence).
  destruct (tick_or_handler t) as [[h' Ht]|Hall].
  - split; [|intros Hnone; by destruct (Hnone h')].
    subst t w'. unfold step. simpl.
    rewrite tick_frame by congruence. done.
  - destruct (handler_timers config gw t w Hall) as [[Heq _]|(id & Heq & _)];
      fold w' in Heq; rewrite Heq.
    + split; [done|]. intros _. by left.
    + split; [by rewrite lookup_insert_ne|].
      intros _. right. exists id. split; [done|]. split; [done|].
      by rewrite map_size_insert_None.
Qed.

Lemma interval_cleared_only_by_own_tick_witness :
  timers (run sample_config always_pending [CompleteQuestions sample_answers; Skip]
            initialWorld) !! 0
  = Some (mkPollTimer "lead-1" 0).
Proof.
  refine (proj1 (interval_cleared_only_by_own_tick sample_config always_pending
                   [CompleteQuestions sample_answers] Skip 0
                   (mkPollTimer "lead-1" 0) eq_refl _)).
  discriminate.
Defined.

(** ** Keys kept by the formatter *)

(** X23. Apart from a key named "__proto__", the formatter preserves the
    shape of its input: the result's own keys are the input's categories
    other than "__proto__"; each such category holds an object whose own
    keys are its question ids other than "__proto__"; each such entry
    carries the input's [question], [type], [answers] and [options]; and
    the empty mapping gives [{}]. *)
Theorem formatAnswersForJson_keeps_other_keys (given : AnswersState) :
  dom (own (formatAnswersForJson given)) = dom given ∖ {["__proto__"]}
  ∧ (∀ category categoryAnswers,
       category ≠ "__proto__" →
       given !! category = Some categoryAnswers →
       ∃ out,
         own (formatAnswersForJson given) !! category = Some out
         ∧ dom (own out) = dom (default ∅ categoryAnswers) ∖ {["__proto__"]}
         ∧ ∀ questionId answer,
             questionId ≠ "__proto__" →
             default ∅ categoryAnswers !! questionId = Some answer →
             ∃ f,
               own out !! questionId = Some f
               ∧ FormattedAnswer.question f = QuestionAnswer.question answer
               ∧ FormattedAnswer.type f = QuestionAnswer.type answer
               ∧ FormattedAnswer.answers f = QuestionAnswer.answers answer
               ∧ FormattedAnswer.options f = QuestionAnswer.options answer)
  ∧ formatAnswersForJson (∅ : AnswersState) = emptyObject.
Proof.
  rewrite formatAnswersForJson_eq. simpl. split; [|split].
  - by rewrite dom_fmap_L, dom_delete_L.
  - intros category categoryAnswers Hne Hc.
    exists (formatCategoryAnswers (default ∅ categoryAnswers)).
    rewrite lookup_fmap, lookup_delete_ne, Hc by done. split; [done|].
    rewrite formatCategoryAnswers_eq. simpl.
    split; [by rewrite dom_fmap_L, dom_delete_L|].
    intros questionId answer Hq Ha. exists (formatAnswer answer).
    by rewrite lookup_fmap, lookup_delete_ne, Ha.
  - unfold formatAnswersForJson. apply map_fold_empty.
Qed.

Lemma formatAnswersForJson_keeps_other_keys_witness :
  ∃ out f,
    own (formatAnswersForJson sample_answers) !! "roofing" = Some out
    ∧ own out !! "Q1" = Some f
    ∧ FormattedAnswer.answers f = ["tile"].
Proof.
  destruct (formatAnswersForJson_keeps_other_keys sample_answers) as (_ & H & _).
  destruct (H "roofing" (Some {[ "Q1" := sample_answer ]}))
    as (out & Hout & _ & Hq); [discriminate|reflexivity|].
  destruct (Hq "Q1" sample_answer) as (f & Hf & _ & _ & Ha & _);
    [discriminate|reflexivity|].
  exists out, f. split; [exact Hout|]. split; [exact Hf|exact Ha].
Defined.
